(** * ACL cog of pumpkin.py: groups, rules, import and export

    Shallow embedding of [modules/base/acl/module.py] (class [ACL]) and
    the properties of its group listing, group commands, rule export and
    rule import.

    Python objects that the code shares and mutates (the [ACL_group] rows
    handed to [bfs]) are modelled by their position in the fetched list:
    two references are the same object exactly when they are the same
    index.  Dictionaries whose insertion order matters are association
    lists; the [relationships] and [result_rej] dictionaries are [gmap]s. *)

From Stdlib Require Import ZArith Ascii String PrimFloat.
From stdpp Require Import gmap strings list fin_maps.

Set Warnings "-register-all,-clear-no-such-hyp".

Local Open Scope string_scope.
Local Open Scope list_scope.
Local Open Scope nat_scope.

(** ** Python values and exceptions *)

Module Py.

(** The values [json.load] produces, and [PyAttr] for the object found
    under an attribute name of one of them (a bound method and the like). *)
Inductive pyval : Type :=
| PyNone
| PyBool (b : bool)
| PyInt (n : Z)
| PyFloat (f : float)
| PyStr (s : string)
| PyList (items : list pyval)
| PyDict (entries : list (string * pyval))
| PyAttr (name : string).

Abbreviation pydict := (list (string * pyval)).

Inductive pyexn : Type :=
| TypeError
| ValueError
| KeyError (key : string).

Inductive res (A : Type) : Type :=
| Ok (a : A)
| Raise (e : pyexn).
Arguments Ok {A} a.
Arguments Raise {A} e.

#[global] Instance res_ret : MRet res := λ A a, Ok a.
#[global] Instance res_bind : MBind res := λ A B k m,
  match m with
  | Ok a => k a
  | Raise e => Raise e
  end.

(** A [for] loop whose body may raise. *)
Fixpoint for_each {A S : Type} (body : S → A → res S) (xs : list A) (st : S)
  : res S :=
  match xs with
  | [] => Ok st
  | x :: xs => st' ← body st x; for_each body xs st'
  end.

(** *** Dictionaries that keep their insertion order *)

Definition dict_get (key : string) (d : pydict) : option pyval :=
  snd <$> List.find (λ kv, bool_decide (kv.1 = key)) d.

(** [d[key] = v]: an existing key keeps its place. *)
Fixpoint dict_set (key : string) (v : pyval) (d : pydict) : pydict :=
  match d with
  | [] => [(key, v)]
  | kv :: d =>
      if bool_decide (kv.1 = key) then (key, v) :: d
      else kv :: dict_set key v d
  end.

(** [del d[key]] *)
Fixpoint dict_del (key : string) (d : pydict) : res pydict :=
  match d with
  | [] => Raise (KeyError key)
  | kv :: d =>
      if bool_decide (kv.1 = key) then Ok d
      else d' ← dict_del key d; Ok (kv :: d')
  end.

Definition dict_keys (d : pydict) : list string := fst <$> d.

(** *** Attributes of the builtin types *)

Definition dict_attrs : list string :=
  ["clear"; "copy"; "fromkeys"; "get"; "items"; "keys"; "pop"; "popitem";
   "setdefault"; "update"; "values"].

Definition list_attrs : list string :=
  ["append"; "clear"; "copy"; "count"; "extend"; "index"; "insert"; "pop";
   "remove"; "reverse"; "sort"].

Definition str_attrs : list string :=
  ["capitalize"; "casefold"; "center"; "count"; "encode"; "endswith";
   "expandtabs"; "find"; "format"; "format_map"; "index"; "isalnum";
   "isalpha"; "isascii"; "isdecimal"; "isdigit"; "isidentifier"; "islower";
   "isnumeric"; "isprintable"; "isspace"; "istitle"; "isupper"; "join";
   "ljust"; "lower"; "lstrip"; "maketrans"; "partition"; "removeprefix";
   "removesuffix"; "replace"; "rfind"; "rindex"; "rjust"; "rpartition";
   "rsplit"; "rstrip"; "split"; "splitlines"; "startswith"; "strip";
   "swapcase"; "title"; "translate"; "upper"; "zfill"].

Definition int_attrs : list string :=
  ["as_integer_ratio"; "bit_count"; "bit_length"; "conjugate";
   "denominator"; "from_bytes"; "imag"; "numerator"; "real"; "to_bytes"].

Definition float_attrs : list string :=
  ["as_integer_ratio"; "conjugate"; "fromhex"; "hex"; "imag"; "is_integer";
   "real"].

Definition public_attrs (obj : pyval) : list string :=
  match obj with
  | PyNone => []
  | PyBool _ | PyInt _ => int_attrs
  | PyFloat _ => float_attrs
  | PyStr _ => str_attrs
  | PyList _ => list_attrs
  | PyDict _ => dict_attrs
  | PyAttr _ => []
  end.

(** Names written [__x__].  Which of them a type has depends on the
    interpreter version; the model takes every such name as present. *)
Definition is_special (name : string) : bool :=
  String.prefix "__" name && String.prefix "__" (String.rev name).

Definition hasattr (obj : pyval) (name : string) : bool :=
  is_special name || bool_decide (name ∈ public_attrs obj).

(** [getattr(obj, name, default)].  The keys of a dictionary are not
    attributes of it. *)
Definition getattr (obj : pyval) (name : string) (dflt : pyval) : pyval :=
  if hasattr obj name then PyAttr name else dflt.

(** *** The tests [import_rules] makes *)

(** [v in (True, False)]: equality with a bool, which an int or a float
    of value 0 or 1 has as well. *)
Definition in_True_False (v : pyval) : bool :=
  match v with
  | PyBool _ => true
  | PyInt n => bool_decide (n = 0%Z ∨ n = 1%Z)
  | PyFloat f => PrimFloat.eqb f PrimFloat.zero || PrimFloat.eqb f PrimFloat.one
  | _ => false
  end.

(** [v == True], for a value that passed [in_True_False]. *)
Definition eq_True (v : pyval) : bool :=
  match v with
  | PyBool b => b
  | PyInt n => bool_decide (n = 1%Z)
  | PyFloat f => PrimFloat.eqb f PrimFloat.one
  | _ => false
  end.

(** [type(v) == list] *)
Definition type_is_list (v : pyval) : bool :=
  match v with PyList _ => true | _ => false end.

(** [type(v) == int]; the type of [True] is [bool]. *)
Definition type_is_int (v : pyval) : bool :=
  match v with PyInt _ => true | _ => false end.

(** [v in names] for a list of strings. *)
Definition in_names (v : pyval) (names : list string) : bool :=
  match v with
  | PyStr s => bool_decide (s ∈ names)
  | _ => false
  end.

Fixpoint chars (s : string) : list pyval :=
  match s with
  | EmptyString => []
  | String c s => PyStr (String c EmptyString) :: chars s
  end.

(** [for x in v]: the elements that the loop sees. *)
Definition iterate (v : pyval) : res (list pyval) :=
  match v with
  | PyList items => Ok items
  | PyDict entries => Ok (PyStr <$> dict_keys entries)
  | PyStr s => Ok (chars s)
  | _ => Raise TypeError
  end.

End Py.

(** ** The database layer *)

(** Modelled from the spec: the class [ACL_group] of [database/acl.py],
    which is not among the sources at hand.  A row has the persisted shape
    Group{id, guildId, name, parent, roleId} with [parent] a nullable name;
    the table is the list of rows in the order of their creation; [add]
    creates a row under an id of the store.  The spec calls the names
    unique within a guild and does not say what [add] does with a name
    that exists, and [module.py] calls [add] without looking the name up:
    the model creates the row in every case.  [remove] tells "not found"
    (negative) from "removed". *)
Module ACL_group.

Record t : Type := mk {
  id : Z;
  guild_id : Z;
  name : string;
  parent : option string;
  role_id : Z
}.

Definition get_all (table : list t) (guild : Z) : list t :=
  List.filter (λ g, bool_decide (guild_id g = guild)) table.

Definition get (table : list t) (guild : Z) (n : string) : option t :=
  List.find (λ g, bool_decide (guild_id g = guild ∧ name g = n)) table.

Definition fresh_id (table : list t) : Z :=
  (1 + foldr Z.max 0 (id <$> table))%Z.

Definition add (table : list t) (guild : Z) (n : string)
    (p : option string) (role : Z) : list t * t :=
  let g := mk (fresh_id table) guild n p role in
  (table ++ [g], g).

(** [group.save()]: the row of this object takes the object's fields. *)
Definition save (table : list t) (g : t) : list t :=
  (λ r, if bool_decide (id r = id g) then g else r) <$> table.

Definition remove (table : list t) (guild : Z) (n : string) : list t * Z :=
  match get table guild n with
  | Some old =>
      (List.filter (λ r, negb (bool_decide (id r = id old))) table, 1%Z)
  | None => (table, (-1)%Z)
  end.

End ACL_group.

(** Modelled from the spec: the class [ACL_rule] of [database/acl.py].  A
    row has the shape Rule{id, guildId, command, default, usersAllow,
    usersDeny, groupsAllow, groupsDeny} under the snake-case names that
    [module.py] uses; [add] creates a default-only rule with empty lists,
    or overwrites the rule of that command; [to_dict] gives one entry per
    field. *)
Module ACL_rule.
Import Py.

Record t : Type := mk {
  id : Z;
  guild_id : Z;
  command : string;
  default : bool;
  users_allow : list Z;
  users_deny : list Z;
  groups_allow : list string;
  groups_deny : list string
}.

Definition get_all (table : list t) (guild : Z) : list t :=
  List.filter (λ r, bool_decide (guild_id r = guild)) table.

Definition get (table : list t) (guild : Z) (c : string) : option t :=
  List.find (λ r, bool_decide (guild_id r = guild ∧ command r = c)) table.

Definition fresh_id (table : list t) : Z :=
  (1 + foldr Z.max 0 (id <$> table))%Z.

Definition add (table : list t) (guild : Z) (c : string) (d : bool)
  : list t * t :=
  match get table guild c with
  | Some old =>
      let r := mk (id old) guild c d [] [] [] [] in
      ((λ r', if bool_decide (id r' = id old) then r else r') <$> table, r)
  | None =>
      let r := mk (fresh_id table) guild c d [] [] [] [] in
      (table ++ [r], r)
  end.

Definition remove_all (table : list t) (guild : Z) : list t * Z :=
  (List.filter (λ r, negb (bool_decide (guild_id r = guild))) table,
   Z.of_nat (length (get_all table guild))).

Definition to_dict (r : t) : pydict :=
  [("id", PyInt (id r));
   ("guild_id", PyInt (guild_id r));
   ("command", PyStr (command r));
   ("default", PyBool (default r));
   ("users_allow", PyList (PyInt <$> users_allow r));
   ("users_deny", PyList (PyInt <$> users_deny r));
   ("groups_allow", PyList (PyStr <$> groups_allow r));
   ("groups_deny", PyList (PyStr <$> groups_deny r))].

End ACL_rule.

(** ** The group listing: [acl_group_list] and its inner [bfs] *)

Module GroupTree.

(** An object reference: the position of the group in the list returned by
    [ACL_group.get_all]. *)
Abbreviation ref := nat.

(** [if key not in relationships: relationships[key] = list()] *)
Definition ensure_key (key : string) (rel : gmap string (list ref))
  : gmap string (list ref) :=
  match rel !! key with
  | Some _ => rel
  | None => <[key := []]> rel
  end.

(** One round of the first loop of [acl_group_list] (lines 46-52), for the
    group object [i] with row [g]. *)
Definition relate (rel : gmap string (list ref)) (ig : ref * ACL_group.t)
  : gmap string (list ref) :=
  let rel := ensure_key (ACL_group.name ig.2) rel in
  match ACL_group.parent ig.2 with
  | None => rel
  | Some p =>
      let rel := ensure_key p rel in
      <[p := default [] (rel !! p) ++ [ig.1]]> rel
  end.

Definition enumerate (groups : list ACL_group.t) : list (ref * ACL_group.t) :=
  imap (λ i g, (i, g)) groups.

Definition relationships (groups : list ACL_group.t) : gmap string (list ref) :=
  foldl relate ∅ (enumerate groups).

(** [group.children = relationships[group.name]] for every group (line 56).
    The key is always present (lemma [relationships_has_name]); the default
    is never used. *)
Definition children_table (groups : list ACL_group.t) : list (list ref) :=
  (λ g, default [] (relationships groups !! ACL_group.name g)) <$> groups.

(** [group.level = 0] for every group (line 57). *)
Definition initial_levels (groups : list ACL_group.t) : list nat :=
  (λ _, 0) <$> groups.

(** [for child in group.children: child.level = group.level + 1].
    [group.level] is read again in every round: a group that is its own
    child changes the value the later children get. *)
Definition set_levels (g : ref) (kids : list ref) (levels : list nat)
  : list nat :=
  foldl (λ lv child, <[child := default 0 (lv !! g) + 1]> lv) levels kids.

(** The [while queue:] loop of [bfs] (lines 61-68).  The loop has no bound
    of its own, so the model takes fuel; [None] means the fuel ran out.
    [bfs_terminates] shows that [bfs_fuel] rounds always suffice. *)
Fixpoint bfs_loop (fuel : nat) (children : list (list ref))
    (levels : list nat) (queue visited : list ref)
  : option (list nat * list ref) :=
  match fuel with
  | 0 => None
  | S fuel =>
      match queue with
      | [] => Some (levels, visited)
      | g :: queue =>
          if decide (g ∈ visited) then
            bfs_loop fuel children levels queue visited
          else
            let kids := default [] (children !! g) in
            bfs_loop fuel children (set_levels g kids levels)
                     (kids ++ queue) (visited ++ [g])
      end
  end.

(** What is still to be paid for: one round and one queue slot per child
    for every group object not yet visited. *)
Fixpoint debt (off : nat) (children : list (list ref)) (visited : list ref)
  : nat :=
  match children with
  | [] => 0
  | kids :: rest =>
      (if decide (off ∈ visited) then 0 else S (length kids))
      + debt (S off) rest visited
  end.

Definition bfs_fuel (children : list (list ref)) : nat :=
  S (length children + debt 0 children []).

(** [bfs(groups)]: the queue starts as the whole list of group objects. *)
Definition bfs (fuel : nat) (groups : list ACL_group.t)
  : option (list nat * list ref) :=
  bfs_loop fuel (children_table groups) (initial_levels groups)
           (seq 0 (length groups)) [].

(** The reply of [acl_group_list]: the "none" message, or the rows of the
    table as (level, group) in traversal order.  The level is read when the
    row is rendered, after [bfs] has returned. *)
Inductive listing : Type :=
| ListingNone
| ListingRows (rows : list (nat * ACL_group.t)).

Definition render (groups : list ACL_group.t) (levels : list nat)
    (visited : list ref) : list (nat * ACL_group.t) :=
  omap (λ i, g ← groups !! i; Some (default 0 (levels !! i), g)) visited.

Definition acl_group_list_fuel (fuel : nat) (groups : list ACL_group.t)
  : option listing :=
  match groups with
  | [] => Some ListingNone
  | _ =>
      '(levels, visited) ← bfs fuel groups;
      Some (ListingRows (render groups levels visited))
  end.

Definition acl_group_list (groups : list ACL_group.t) : option listing :=
  acl_group_list_fuel (bfs_fuel (children_table groups)) groups.

(** Level of the group named [n] in a rendered table. *)
Definition level_of (n : string) (rows : list (nat * ACL_group.t))
  : option nat :=
  fst <$> List.find (λ r, bool_decide (ACL_group.name r.2 = n)) rows.

(** The group object [i] is listed below level 0. *)
Definition indented (levels : list nat) (i : ref) : Prop :=
  1 ≤ default 0 (levels !! i).

(** Every group comes after the group whose name it has as parent. *)
Definition parents_first (groups : list ACL_group.t) : Prop :=
  ∀ i j gi gj,
    groups !! i = Some gi → groups !! j = Some gj →
    ACL_group.parent gi = Some (ACL_group.name gj) → j < i.

End GroupTree.

(** ** The group commands [acl group add] and [acl group update] *)

Module GroupCommands.
Import Py.

(** What the command answers with. *)
Inductive reply : Type :=
| ReplyBadName
| ReplyNone
| ReplyBadParameter
| ReplyEmbed (group : ACL_group.t).

Definition name_char (c : ascii) : bool :=
  let n := nat_of_ascii c in
  ((97 <=? n) && (n <=? 122)) || ((65 <=? n) && (n <=? 90)) || (n =? 45).

(** [re.fullmatch(r"[a-zA-Z-]+", s) is not None] *)
Definition fullmatch_RE_NAME (s : string) : bool :=
  match list_ascii_of_string s with
  | [] => false
  | cs => forallb name_char cs
  end.

(** [acl_group_add] (lines 103-111), on the group table of the database. *)
Definition acl_group_add (table : list ACL_group.t) (guild : Z)
    (name parent : string) (role_id : Z) : list ACL_group.t * reply :=
  if negb (fullmatch_RE_NAME name) then (table, ReplyBadName)
  else
    let parent := if String.length parent =? 0 then None else Some parent in
    let '(table, group) := ACL_group.add table guild name parent role_id in
    (table, ReplyEmbed group).

Section Update.

(** The builtin [int] on a string: the integer, or [ValueError].  Which
    strings it takes depends on the Unicode tables of the interpreter
    (digits and blanks of every script), so it is a parameter of the
    model. *)
Variable py_int : string → res Z.

(** [acl_group_update] (lines 134-154).  The pattern is matched against
    [name], the name the group is looked up by; [value] is assigned as it
    comes. *)
Definition acl_group_update (table : list ACL_group.t) (guild : Z)
    (name param value : string) : res (list ACL_group.t * reply) :=
  match ACL_group.get table guild name with
  | None => Ok (table, ReplyNone)
  | Some group =>
      let save group := Ok (ACL_group.save table group, ReplyEmbed group) in
      if bool_decide (param = "name") then
        if negb (fullmatch_RE_NAME name) then Ok (table, ReplyBadName)
        else
          save (ACL_group.mk (ACL_group.id group) (ACL_group.guild_id group)
                  value (ACL_group.parent group) (ACL_group.role_id group))
      else if bool_decide (param = "parent") then
        save (ACL_group.mk (ACL_group.id group) (ACL_group.guild_id group)
                (ACL_group.name group) (Some value) (ACL_group.role_id group))
      else if bool_decide (param = "role_id") then
        role ← py_int value;
        save (ACL_group.mk (ACL_group.id group) (ACL_group.guild_id group)
                (ACL_group.name group) (ACL_group.parent group) role)
      else Ok (table, ReplyBadParameter)
  end.

End Update.

(** Every name in the table matches the pattern. *)
Definition valid_names (table : list ACL_group.t) : Prop :=
  Forall (λ g, fullmatch_RE_NAME (ACL_group.name g) = true) table.

End GroupCommands.

(** ** The rule commands: export, flush and import *)

Module RuleCommands.
Import Py.

(** The loop of [acl_rule_export] (lines 186-193): the dictionary that is
    dumped, with the number of rules the reply names. *)
Definition export_step (export : pydict) (rule : ACL_rule.t) : res pydict :=
  rule_dict ← dict_del "id" (ACL_rule.to_dict rule);
  rule_dict ← dict_del "command" rule_dict;
  rule_dict ← dict_del "guild_id" rule_dict;
  Ok (dict_set "command" (PyDict rule_dict) export).

Definition acl_rule_export (table : list ACL_rule.t) (guild : Z)
  : res (pydict * nat) :=
  let rules := ACL_rule.get_all table guild in
  export ← for_each export_step rules [];
  Ok (export, length rules).

(** [acl_rule_flush]: export, then remove every rule of the guild. *)
Definition acl_rule_flush (table : list ACL_rule.t) (guild : Z)
  : res (pydict * list ACL_rule.t) :=
  '(export, _) ← acl_rule_export table guild;
  Ok (export, (ACL_rule.remove_all table guild).1).

(** The local variables of [import_rules] and the rule table. *)
Record import_state : Type := mkImport {
  result_new : list string;
  result_upd : list string;
  result_rej : gmap string (gset string);
  rules : list ACL_rule.t
}.

(** [result_rej[reason].add(command)] *)
Definition reject (reason command : string)
    (rej : gmap string (gset string)) : res (gmap string (gset string)) :=
  match rej !! reason with
  | Some commands => Ok (<[reason := commands ∪ {[command]}]> rej)
  | None => Raise (KeyError reason)
  end.

(** The five reasons of line 319, each with an empty set. *)
Definition initial_rej : gmap string (gset string) :=
  foldl (λ rej reason, <[reason := ∅]> rej) ∅
        ["not bool"; "not list"; "not group"; "not user id"; "duplicate"].

(** The flag [bad] and the rejections, as the checks of one command
    update them. *)
Definition verdict : Type := bool * gmap string (gset string).

(** Lines 328-330. *)
Definition check_bool (command : string) (attributes : pyval) (v : verdict)
  : res verdict :=
  if negb (in_True_False (getattr attributes "default" (PyBool false)))
  then rej ← reject "not bool" command v.2; Ok (true, rej)
  else Ok v.

(** Lines 333-336. *)
Definition check_lists (command : string) (attributes : pyval) (v : verdict)
  : res verdict :=
  for_each (λ v keyword,
      if negb (type_is_list (getattr attributes keyword (PyList [])))
      then rej ← reject "not list" command v.2; Ok (true, rej)
      else Ok v)
    ["users_allow"; "users_deny"; "groups_allow"; "groups_deny"] v.

(** Lines 339-343. *)
Definition check_groups (acl_groups : list string) (command : string)
    (attributes : pyval) (v : verdict) : res verdict :=
  for_each (λ v keyword,
      groups ← iterate (getattr attributes keyword (PyList []));
      for_each (λ v group,
          if negb (in_names group acl_groups)
          then rej ← reject "not group" command v.2; Ok (true, rej)
          else Ok v)
        groups v)
    ["groups_allow"; "groups_deny"] v.

(** Lines 346-350. *)
Definition check_users (command : string) (attributes : pyval) (v : verdict)
  : res verdict :=
  for_each (λ v keyword,
      users ← iterate (getattr attributes keyword (PyList []));
      for_each (λ v user_id,
          if negb (type_is_int user_id)
          then rej ← reject "not user id" command v.2; Ok (true, rej)
          else Ok v)
        users v)
    ["users_allow"; "users_deny"] v.

(** One round of the loop over [data.items()] (lines 324-363). *)
Definition import_entry (acl_groups : list string) (guild_id : Z)
    (mode : string) (st : import_state) (entry : string * pyval)
  : res import_state :=
  let '(command, attributes) := entry in
  v ← check_bool command attributes (false, result_rej st);
  v ← check_lists command attributes v;
  v ← check_groups acl_groups command attributes v;
  '(bad, rej) ← check_users command attributes v;
  let st := mkImport (result_new st) (result_upd st) rej (rules st) in
  if bad : bool then Ok st
  else if bool_decide (is_Some (ACL_rule.get (rules st) guild_id command))
          && negb (bool_decide (mode = "replace"))
  then
    rej ← reject "duplicate" command (result_rej st);
    Ok (mkImport (result_new st) (result_upd st) rej (rules st))
  else
    let '(table, rule) :=
      ACL_rule.add (rules st) guild_id command
        (eq_True (getattr attributes "default" (PyBool false))) in
    (* add rule groups: the loop body is [pass] *)
    _ ← iterate (getattr attributes "groups_allow" (PyList []));
    Ok (mkImport (result_new st) (result_upd st) (result_rej st) table).

(** [import_rules(guild_id, data, mode)].  The function ends with its loop
    and has no [return]: what the caller gets is [None].  The model gives
    the local variables and the rule table as the loop leaves them. *)
Definition import_rules (groups : list ACL_group.t)
    (table : list ACL_rule.t) (guild_id : Z) (data : pydict) (mode : string)
  : res import_state :=
  let acl_groups := ACL_group.name <$> ACL_group.get_all groups guild_id in
  for_each (import_entry acl_groups guild_id mode) data
           (mkImport [] [] initial_rej table).

(** What the caller of [import_rules] receives.  The body ends with the
    loop: there is no [return], so the call evaluates to [None] when the
    loop raises nothing, and the three result variables are dropped. *)
Definition import_rules_returns (groups : list ACL_group.t)
    (table : list ACL_rule.t) (guild_id : Z) (data : pydict) (mode : string)
  : res pyval :=
  _ ← import_rules groups table guild_id data mode;
  Ok PyNone.

(** The commands filed under a reason. *)
Definition rejected (reason : string) (st : import_state) : gset string :=
  default ∅ (result_rej st !! reason).

End RuleCommands.

(** ** The authorization decision *)

(** Modelled from the spec: [authorize(rule, userId, userGroups)] of the
    AuthorizationEngine, which lives outside [module.py].  The five steps
    of the decision precedence, in their order. *)
Module Authorization.

Definition authorize (rule : ACL_rule.t) (user_id : Z)
    (user_groups : gset string) : bool :=
  if existsb (Z.eqb user_id) (ACL_rule.users_deny rule) then false
  else if existsb (Z.eqb user_id) (ACL_rule.users_allow rule) then true
  else if existsb (λ g, bool_decide (g ∈ user_groups))
            (ACL_rule.groups_deny rule) then false
  else if existsb (λ g, bool_decide (g ∈ user_groups))
            (ACL_rule.groups_allow rule) then true
  else ACL_rule.default rule.

End Authorization.

(** ** What a round of the import loop comes to *)

Module ImportEffect.
Import Py RuleCommands.

(** The state after one round of the loop of [import_rules], written
    without the checks; [import_entry_effect] shows that [import_entry]
    returns exactly this state. *)
Definition import_entry_does (guild_id : Z) (mode : string)
    (st : import_state) (entry : string * pyval) : import_state :=
  if bool_decide (is_Some (ACL_rule.get (rules st) guild_id entry.1))
     && negb (bool_decide (mode = "replace"))
  then
    mkImport (result_new st) (result_upd st)
             (<["duplicate" := rejected "duplicate" st ∪ {[entry.1]}]>
                (result_rej st))
             (rules st)
  else
    mkImport (result_new st) (result_upd st) (result_rej st)
             (ACL_rule.add (rules st) guild_id entry.1 false).1.

(** The names that [import_rules] hands to [getattr]. *)
Definition keywords : list string :=
  ["default"; "users_allow"; "users_deny"; "groups_allow"; "groups_deny"].

(** [result_rej["duplicate"]] exists. *)
Definition has_duplicate_key (st : import_state) : Prop :=
  is_Some (result_rej st !! "duplicate").

(** Export of the rules of a guild, then import of the exported document
    in mode "replace" into the table [target]. *)
Definition export_then_import (groups : list ACL_group.t)
    (table target : list ACL_rule.t) (guild : Z) : res import_state :=
  '(document, _) ← acl_rule_export table guild;
  import_rules groups target guild document "replace".

(** What stays of a rule in the exported document. *)
Definition exported_fields (r : ACL_rule.t) : pyval :=
  PyDict [("default", PyBool (ACL_rule.default r));
          ("users_allow", PyList (PyInt <$> ACL_rule.users_allow r));
          ("users_deny", PyList (PyInt <$> ACL_rule.users_deny r));
          ("groups_allow", PyList (PyStr <$> ACL_rule.groups_allow r));
          ("groups_deny", PyList (PyStr <$> ACL_rule.groups_deny r))].

(** A rule as [ACL_rule.add] creates it for a command of the document. *)
Definition default_only (guild_id : Z) (data : pydict) (r : ACL_rule.t)
  : Prop :=
  ACL_rule.guild_id r = guild_id
  ∧ ACL_rule.command r ∈ dict_keys data
  ∧ ACL_rule.default r = false
  ∧ ACL_rule.users_allow r = [] ∧ ACL_rule.users_deny r = []
  ∧ ACL_rule.groups_allow r = [] ∧ ACL_rule.groups_deny r = [].

End ImportEffect.

(** ** Sample data *)

Module Inputs.
Import Py.

Definition g_admin := ACL_group.mk 1 7 "admin" None 111.
Definition g_mod := ACL_group.mk 2 7 "mod" (Some "admin") 222.

(** A chain a <- b <- c, created leaf first. *)
Definition g_c := ACL_group.mk 1 7 "c" (Some "b") 0.
Definition g_b := ACL_group.mk 2 7 "b" (Some "a") 0.
Definition g_a := ACL_group.mk 3 7 "a" None 0.

Definition r_kick := ACL_rule.mk 1 7 "kick" false [] [42%Z] ["mod"] [].
Definition r_ban := ACL_rule.mk 2 7 "ban" true [7%Z] [] [] ["mod"].
Definition r_mute := ACL_rule.mk 3 7 "mute" true [] [] ["admin"] [].
Definition r_warn := ACL_rule.mk 4 7 "warn" false [] [] [] [].
Definition r_purge := ACL_rule.mk 5 7 "purge" true [] [] ["admin"; "mod"] [].

(** The document of the spec's scenario, under the keys the spec writes
    and under the keys [import_rules] asks for. *)
Definition doc_ghost_camel : pydict :=
  [("ban", PyDict [("default", PyBool true);
                   ("groupsAllow", PyList [PyStr "ghost"])])].

Definition doc_ghost : pydict :=
  [("ban", PyDict [("default", PyBool true);
                   ("groups_allow", PyList [PyStr "ghost"])])].

(** A document whose entry is well-formed and refers to a known group. *)
Definition doc_valid : pydict :=
  [("ban", PyDict [("default", PyBool true);
                   ("groups_allow", PyList [PyStr "mod"]);
                   ("users_deny", PyList [PyInt 42])])].

Definition doc_kick : pydict :=
  [("kick", PyDict [("default", PyBool true)])].

(** Three commands, two of which have a rule in [[r_kick; r_ban]]. *)
Definition doc_three : pydict :=
  [("kick", PyDict [("default", PyBool true)]);
   ("mute", PyDict []);
   ("ban", PyDict [("users_deny", PyList [PyInt 42])])].

(** A stand-in for the builtin [int] in the samples: right on the one
    string they hand to it, "5". *)
Definition int_sample (s : string) : res Z :=
  if bool_decide (s = "5") then Ok 5%Z else Raise ValueError.

End Inputs.

Import Py GroupTree GroupCommands RuleCommands ImportEffect Authorization.
Import Inputs.

Example listing_admin_mod :
  acl_group_list [g_admin; g_mod]
  = Some (ListingRows [(0, g_admin); (1, g_mod)]).
Proof. vm_compute. reflexivity. Qed.

(** ** Termination of the traversal *)

Lemma debt_visit_le children off (visited : list ref) g :
  debt off children (visited ++ [g]) ≤ debt off children visited.
Proof.
  revert off. induction children as [|kids rest IH]; intros off; simpl.
  - lia.
  - specialize (IH (S off)).
    repeat case_decide; try lia.
    exfalso. set_solver.
Qed.

Lemma debt_visit children off (visited : list ref) i kids :
  children !! i = Some kids → off + i ∉ visited →
  debt off children (visited ++ [off + i]) + S (length kids)
  ≤ debt off children visited.
Proof.
  revert off i.
  induction children as [|kids0 rest IH]; intros off i Hi Hnew; [done|].
  destruct i as [|i]; simpl in *.
  - injection Hi as ->. rewrite Nat.add_0_r in *.
    rewrite (decide_True (P := off ∈ visited ++ [off])) by set_solver.
    rewrite (decide_False (P := off ∈ visited)) by done.
    pose proof (debt_visit_le rest (S off) visited off). lia.
  - replace (off + S i) with (S off + i) in * by lia.
    specialize (IH (S off) i Hi Hnew).
    repeat case_decide; try lia. set_solver.
Qed.

Lemma bfs_loop_enough children fuel levels queue visited :
  length queue + debt 0 children visited < fuel →
  is_Some (bfs_loop fuel children levels queue visited).
Proof.
  revert levels queue visited.
  induction fuel as [|fuel IH]; intros levels queue visited Hfuel; [lia|].
  destruct queue as [|g queue]; simpl; [by eexists|].
  simpl in Hfuel. case_decide as Hseen.
  - apply IH. lia.
  - apply IH. rewrite length_app.
    destruct (children !! g) as [kids|] eqn:Hg; simpl.
    + pose proof (debt_visit children 0 visited g kids Hg Hseen). simpl in *. lia.
    + pose proof (debt_visit_le children 0 visited g). lia.
Qed.

Lemma bfs_loop_more_fuel children fuel fuel' levels queue visited out :
  bfs_loop fuel children levels queue visited = Some out → fuel ≤ fuel' →
  bfs_loop fuel' children levels queue visited = Some out.
Proof.
  revert fuel' levels queue visited.
  induction fuel as [|fuel IH]; intros fuel' levels queue visited Hrun Hle;
    [done|].
  destruct fuel' as [|fuel']; [lia|].
  destruct queue as [|g queue]; simpl in *; [done|].
  case_decide; apply IH; (done || lia).
Qed.

(** Every group object is appended to [visited] at most once. *)
Lemma bfs_loop_NoDup children fuel levels queue visited levels' visited' :
  bfs_loop fuel children levels queue visited = Some (levels', visited') →
  NoDup visited → NoDup visited'.
Proof.
  revert levels queue visited.
  induction fuel as [|fuel IH]; intros levels queue visited Hrun Hnd; [done|].
  destruct queue as [|g queue]; simpl in Hrun.
  - by injection Hrun as _ <-.
  - case_decide as Hseen; [by eapply IH|].
    eapply IH; [done|].
    apply NoDup_app. split; [done|]. split; [|apply NoDup_singleton].
    by intros x Hx ->%list_elem_of_singleton.
Qed.

Lemma bfs_loop_covers children fuel levels queue visited levels' visited' :
  bfs_loop fuel children levels queue visited = Some (levels', visited') →
  ∀ x, x ∈ visited ∨ x ∈ queue → x ∈ visited'.
Proof.
  revert levels queue visited.
  induction fuel as [|fuel IH]; intros levels queue visited Hrun x Hx; [done|].
  destruct queue as [|g queue]; simpl in Hrun.
  - injection Hrun as _ <-. set_solver.
  - case_decide as Hseen; eapply IH; try done; set_solver.
Qed.

Lemma bfs_loop_within (P : ref → Prop) children fuel levels queue visited
    levels' visited' :
  bfs_loop fuel children levels queue visited = Some (levels', visited') →
  (∀ g kids x, children !! g = Some kids → x ∈ kids → P x) →
  (∀ x, x ∈ visited ∨ x ∈ queue → P x) →
  ∀ x, x ∈ visited' → P x.
Proof.
  intros Hrun Hkids. revert levels queue visited Hrun.
  induction fuel as [|fuel IH]; intros levels queue visited Hrun Hin x Hx;
    [done|].
  destruct queue as [|g queue]; simpl in Hrun.
  - injection Hrun as _ <-. auto.
  - case_decide as Hseen.
    + eapply IH; [done| |done]. intros y Hy. apply Hin. set_solver.
    + eapply IH; [done| |done]. intros y Hy.
      rewrite !elem_of_app, list_elem_of_singleton in Hy.
      destruct Hy as [[Hy | ->] | [Hy | Hy]].
      * apply Hin. by left.
      * apply Hin. right. set_solver.
      * destruct (children !! g) as [kids|] eqn:Hg; simpl in Hy.
        -- by eapply Hkids.
        -- by apply elem_of_nil in Hy.
      * apply Hin. right. set_solver.
Qed.

(** C10: for every list of groups, cyclic or dangling parents included,
    the traversal of the group listing terminates: [bfs_fuel] rounds of the
    loop are enough, more fuel gives the same result, no group object is
    recorded as visited twice, and [acl_group_list] produces its reply. *)
Theorem bfs_terminates (groups : list ACL_group.t) :
  ∃ out,
    (∀ fuel, bfs_fuel (children_table groups) ≤ fuel →
             bfs fuel groups = Some out)
    ∧ NoDup out.2
    ∧ is_Some (acl_group_list groups).
Proof.
  destruct (bfs_loop_enough (children_table groups)
              (bfs_fuel (children_table groups)) (initial_levels groups)
              (seq 0 (length groups)) []) as [[levels visited] Hrun].
  { unfold bfs_fuel, children_table.
    rewrite length_seq, length_fmap. lia. }
  exists (levels, visited). split_and!.
  - intros fuel Hfuel. by eapply bfs_loop_more_fuel.
  - eapply bfs_loop_NoDup; [done | constructor].
  - unfold acl_group_list, acl_group_list_fuel, bfs.
    destruct groups; [by eexists|]. rewrite Hrun. by eexists.
Qed.

(** ** What the traversal gets right *)

Lemma foldl_relate_inv (P : gmap string (list ref) → Prop)
    (l : list (ref * ACL_group.t)) (rel : gmap string (list ref)) :
  (∀ rel ig, ig ∈ l → P rel → P (relate rel ig)) →
  P rel → P (foldl relate rel l).
Proof.
  revert rel. induction l as [|ig l IH]; intros rel Hstep Hrel; simpl; [done|].
  apply IH.
  - intros rel' ig' Hin. apply Hstep. by right.
  - apply Hstep; [by left | done].
Qed.

Lemma ensure_key_there key rel : is_Some (ensure_key key rel !! key).
Proof.
  unfold ensure_key. destruct (rel !! key) eqn:Hkey.
  - rewrite Hkey. by eexists.
  - rewrite lookup_insert_eq. by eexists.
Qed.

Lemma ensure_key_keeps key k rel :
  is_Some (rel !! k) → is_Some (ensure_key key rel !! k).
Proof.
  unfold ensure_key. intros Hk. destruct (rel !! key) eqn:Hkey; [done|].
  destruct (decide (key = k)) as [-> | Hne].
  - rewrite lookup_insert_eq. by eexists.
  - by rewrite lookup_insert_ne.
Qed.

Lemma ensure_key_lookup key k rel kids :
  ensure_key key rel !! k = Some kids →
  rel !! k = Some kids ∨ kids = [].
Proof.
  unfold ensure_key. destruct (rel !! key) eqn:Hkey; [by left|].
  destruct (decide (key = k)) as [-> | Hne].
  - rewrite lookup_insert_eq. intros [= <-]. by right.
  - rewrite lookup_insert_ne by done. by left.
Qed.

Lemma relate_keeps rel ig k :
  is_Some (rel !! k) → is_Some (relate rel ig !! k).
Proof.
  intros Hk. unfold relate.
  destruct (ACL_group.parent ig.2) as [p|]; [|by apply ensure_key_keeps].
  destruct (decide (p = k)) as [-> | Hne].
  - rewrite lookup_insert_eq. by eexists.
  - rewrite lookup_insert_ne by done. by do 2 apply ensure_key_keeps.
Qed.

Lemma relate_name rel ig : is_Some (relate rel ig !! ACL_group.name ig.2).
Proof.
  unfold relate.
  destruct (ACL_group.parent ig.2) as [p|]; [|apply ensure_key_there].
  destruct (decide (p = ACL_group.name ig.2)) as [-> | Hne].
  - rewrite lookup_insert_eq. by eexists.
  - rewrite lookup_insert_ne by done.
    apply ensure_key_keeps, ensure_key_there.
Qed.

Lemma foldl_relate_keeps l rel k :
  is_Some (rel !! k) → is_Some (foldl relate rel l !! k).
Proof.
  intros Hk.
  apply (foldl_relate_inv (λ rel, is_Some (rel !! k))); [|done].
  intros rel' ig _. apply relate_keeps.
Qed.

(** X13: [relationships[group.name]] of line 56 raises no [KeyError]: the
    name of every group of the list is a key, whatever the parents are. *)
Lemma relationships_has_name (groups : list ACL_group.t) (g : ACL_group.t) :
  g ∈ groups → is_Some (relationships groups !! ACL_group.name g).
Proof.
  unfold relationships, enumerate. intros Hg.
  apply list_elem_of_lookup in Hg as [i Hi].
  assert ((i, g) ∈ imap (λ i g, (i, g)) groups) as Hin.
  { apply elem_of_lookup_imap. by exists i, g. }
  revert Hin. generalize (imap (λ i g, (i, g)) groups).
  generalize (∅ : gmap string (list ref)).
  intros rel l. revert rel. induction l as [|ig l IH]; intros rel Hin.
  - by apply elem_of_nil in Hin.
  - simpl. apply elem_of_cons in Hin as [<- | Hin]; [|by apply IH].
    apply foldl_relate_keeps. apply (relate_name rel (i, g)).
Qed.

(** The list under a key holds objects of the list of groups, each with
    that key as its parent. *)
Lemma relationships_parent (groups : list ACL_group.t) k kids i :
  relationships groups !! k = Some kids → i ∈ kids →
  ∃ g, groups !! i = Some g ∧ ACL_group.parent g = Some k.
Proof.
  unfold relationships. revert k kids i.
  apply (foldl_relate_inv (λ rel, ∀ k kids i,
           rel !! k = Some kids → i ∈ kids →
           ∃ g, groups !! i = Some g ∧ ACL_group.parent g = Some k)).
  - intros rel [j g] Hin Hrel k kids i. unfold relate. simpl.
    apply elem_of_lookup_imap in Hin as (j' & g' & [= -> ->] & Hj).
    assert (∀ key k kids, ensure_key key rel !! k = Some kids → i ∈ kids →
              ∃ g, groups !! i = Some g ∧ ACL_group.parent g = Some k)
      as Hens.
    { intros key k' kids' Hk Hi.
      apply ensure_key_lookup in Hk as [Hk | ->]; [by eapply Hrel|].
      by apply elem_of_nil in Hi. }
    destruct (ACL_group.parent g') as [p|] eqn:Hp; [|by eapply Hens].
    destruct (decide (p = k)) as [-> | Hne].
    + rewrite lookup_insert_eq. intros [= <-] Hi.
      apply elem_of_app in Hi as [Hi | Hi].
      * destruct (ensure_key k (ensure_key (ACL_group.name g') rel) !! k)
          as [old|] eqn:Hold; simpl in Hi; [|by apply elem_of_nil in Hi].
        apply ensure_key_lookup in Hold as [Hold | ->];
          [|by apply elem_of_nil in Hi].
        by eapply Hens.
      * apply list_elem_of_singleton in Hi as ->. by exists g'.
    + rewrite lookup_insert_ne by done. intros Hk Hi.
      apply ensure_key_lookup in Hk as [Hk | ->];
        [by eapply Hens | by apply elem_of_nil in Hi].
  - intros k kids i Hk. by rewrite lookup_empty in Hk.
Qed.

Lemma children_table_parent (groups : list ACL_group.t) j kids i :
  children_table groups !! j = Some kids → i ∈ kids →
  ∃ g, groups !! i = Some g ∧ is_Some (ACL_group.parent g).
Proof.
  unfold children_table. rewrite list_lookup_fmap.
  destruct (groups !! j) as [gj|]; simpl; [|done].
  intros [= <-] Hi.
  destruct (relationships groups !! ACL_group.name gj) as [kids|] eqn:Hrel;
    simpl in Hi; [|by apply elem_of_nil in Hi].
  destruct (relationships_parent groups _ _ _ Hrel Hi) as (g & Hg & Hp).
  exists g. split; [done | by eexists].
Qed.

(** The traversal lists every group object exactly once, in whatever order
    the groups are fetched. *)
Lemma bfs_visits_each_once (groups : list ACL_group.t) fuel levels visited :
  bfs fuel groups = Some (levels, visited) →
  visited ≡ₚ seq 0 (length groups).
Proof.
  unfold bfs. intros Hrun. apply NoDup_Permutation.
  - eapply bfs_loop_NoDup; [done | constructor].
  - apply NoDup_seq.
  - intros x. split.
    + revert x.
      apply (bfs_loop_within (λ x, x ∈ seq 0 (length groups)) _ _ _ _ _ _ _
               Hrun).
      * intros j kids x Hj Hx.
        destruct (children_table_parent groups j kids x Hj Hx)
          as (g & Hg%lookup_lt_Some & _).
        apply elem_of_seq. lia.
      * intros x [Hx | Hx]; [by apply elem_of_nil in Hx | done].
    + intros Hx. eapply bfs_loop_covers; [done | by right].
Qed.

Lemma set_levels_other g kids levels i :
  i ∉ kids → set_levels g kids levels !! i = levels !! i.
Proof.
  unfold set_levels. revert levels.
  induction kids as [|k kids IH]; intros levels Hi; simpl; [done|].
  apply not_elem_of_cons in Hi as [Hne Hi].
  rewrite IH by done. by apply list_lookup_insert_ne.
Qed.

Lemma bfs_loop_level_kept children fuel levels queue visited levels' visited'
    i :
  (∀ g kids, children !! g = Some kids → i ∉ kids) →
  bfs_loop fuel children levels queue visited = Some (levels', visited') →
  levels' !! i = levels !! i.
Proof.
  intros Hfree. revert levels queue visited.
  induction fuel as [|fuel IH]; intros levels queue visited Hrun; [done|].
  destruct queue as [|g queue]; simpl in Hrun.
  - by injection Hrun as <- _.
  - case_decide; [by eapply IH|].
    rewrite (IH _ _ _ Hrun). apply set_levels_other.
    destruct (children !! g) as [kids|] eqn:Hg; simpl.
    + by eapply Hfree.
    + apply not_elem_of_nil.
Qed.

(** A group without parent is listed at level 0. *)
Lemma bfs_root_level (groups : list ACL_group.t) fuel levels visited i g :
  bfs fuel groups = Some (levels, visited) →
  groups !! i = Some g → ACL_group.parent g = None →
  levels !! i = Some 0.
Proof.
  unfold bfs. intros Hrun Hg Hroot.
  rewrite (bfs_loop_level_kept _ _ _ _ _ _ _ i) with (2 := Hrun).
  - unfold initial_levels. by rewrite list_lookup_fmap, Hg.
  - intros j kids Hj Hi.
    destruct (children_table_parent groups j kids i Hj Hi)
      as (g' & Hg' & [p Hp]).
    congruence.
Qed.

(** ** The checks of [import_rules] *)

(** No builtin value has an attribute under one of the names that
    [import_rules] asks for, so [getattr] answers with its default. *)
Lemma getattr_keyword (obj : pyval) (name : string) (dflt : pyval) :
  name ∈ keywords → getattr obj name dflt = dflt.
Proof.
  unfold keywords. rewrite !elem_of_cons, elem_of_nil.
  intros Hname. unfold getattr.
  assert (hasattr obj name = false) as ->; [|done].
  destruct Hname as [-> | [-> | [-> | [-> | [-> | []]]]]];
    destruct obj; vm_compute; reflexivity.
Qed.

Ltac keyword := unfold keywords; set_solver.

Lemma check_bool_passes command attributes v :
  check_bool command attributes v = Ok v.
Proof.
  unfold check_bool. by rewrite getattr_keyword by keyword.
Qed.

Lemma check_lists_passes command attributes v :
  check_lists command attributes v = Ok v.
Proof.
  unfold check_lists. simpl.
  by rewrite !getattr_keyword by keyword.
Qed.

Lemma check_groups_passes acl_groups command attributes v :
  check_groups acl_groups command attributes v = Ok v.
Proof.
  unfold check_groups. simpl.
  by rewrite !getattr_keyword by keyword.
Qed.

Lemma check_users_passes command attributes v :
  check_users command attributes v = Ok v.
Proof.
  unfold check_users. simpl.
  by rewrite !getattr_keyword by keyword.
Qed.

Lemma import_entry_effect acl_groups guild_id mode st entry :
  is_Some (result_rej st !! "duplicate") →
  import_entry acl_groups guild_id mode st entry
  = Ok (import_entry_does guild_id mode st entry).
Proof.
  intros [dups Hdups]. destruct entry as [command attributes].
  unfold import_entry, import_entry_does.
  rewrite check_bool_passes. simpl.
  rewrite check_lists_passes. simpl.
  rewrite check_groups_passes. simpl.
  rewrite check_users_passes. simpl.
  destruct st as [new upd rej table]. simpl in *.
  case_match.
  - unfold reject, rejected. simpl. by rewrite Hdups.
  - rewrite !getattr_keyword by keyword. simpl.
    by destruct (ACL_rule.add table guild_id command false).
Qed.

Lemma for_each_total {A S : Type} (Inv : S → Prop) (body : S → A → res S)
    (f : S → A → S) (xs : list A) (st : S) :
  (∀ st x, Inv st → body st x = Ok (f st x) ∧ Inv (f st x)) →
  Inv st → for_each body xs st = Ok (foldl f st xs) ∧ Inv (foldl f st xs).
Proof.
  intros Hbody. revert st.
  induction xs as [|x xs IH]; intros st Hst; simpl; [done|].
  destruct (Hbody st x Hst) as [-> Hst']. simpl. by apply IH.
Qed.

Lemma import_entry_does_key guild_id mode st entry :
  has_duplicate_key st →
  has_duplicate_key (import_entry_does guild_id mode st entry).
Proof.
  unfold has_duplicate_key, import_entry_does. intros Hst.
  case_match; simpl; [|done]. rewrite lookup_insert_eq. by eexists.
Qed.

(** [import_rules] raises nothing, and its final state is the fold of
    [import_entry_does] over the entries of the document. *)
Lemma import_rules_effect groups table guild_id data mode :
  import_rules groups table guild_id data mode
  = Ok (foldl (import_entry_does guild_id mode)
              (mkImport [] [] initial_rej table) data).
Proof.
  unfold import_rules.
  refine (proj1 (for_each_total has_duplicate_key _ _ data _ _ _)).
  - intros st x Hst. split.
    + by apply import_entry_effect.
    + by apply import_entry_does_key.
  - unfold has_duplicate_key. simpl. by eexists.
Qed.

Lemma rule_get_app table extra guild c r :
  ACL_rule.get table guild c = Some r →
  ACL_rule.get (table ++ extra) guild c = Some r.
Proof.
  unfold ACL_rule.get. induction table as [|r0 table IH]; simpl; [done|].
  by case_match.
Qed.

(** Outside mode "replace" a round of the loop keeps every rule that is
    stored: it files the command as a duplicate or appends a new row. *)
Lemma import_entry_does_keeps guild_id mode st entry c r :
  mode ≠ "replace" →
  ACL_rule.get (rules st) guild_id c = Some r →
  ACL_rule.get (rules (import_entry_does guild_id mode st entry)) guild_id c
  = Some r.
Proof.
  intros Hmode Hget. unfold import_entry_does.
  rewrite (bool_decide_eq_false_2 (mode = "replace")) by done.
  rewrite andb_true_r. case_bool_decide as Hthere; simpl; [done|].
  unfold ACL_rule.add.
  destruct (ACL_rule.get (rules st) guild_id entry.1) eqn:Hentry.
  - exfalso. apply Hthere. by eexists.
  - simpl. by apply rule_get_app.
Qed.

Lemma import_entry_does_rejected guild_id mode st entry c :
  c ∈ rejected "duplicate" st →
  c ∈ rejected "duplicate" (import_entry_does guild_id mode st entry).
Proof.
  unfold import_entry_does. case_match; [|done].
  unfold rejected at 2. simpl. rewrite lookup_insert_eq. simpl. set_solver.
Qed.

Lemma import_entry_does_duplicate guild_id mode st attributes c :
  mode ≠ "replace" →
  is_Some (ACL_rule.get (rules st) guild_id c) →
  c ∈ rejected "duplicate"
        (import_entry_does guild_id mode st (c, attributes)).
Proof.
  intros Hmode Hget. unfold import_entry_does. simpl.
  rewrite (bool_decide_eq_true_2 _ Hget).
  rewrite (bool_decide_eq_false_2 (mode = "replace")) by done. simpl.
  unfold rejected at 1. simpl. rewrite lookup_insert_eq. simpl. set_solver.
Qed.

Lemma import_fold_duplicate guild_id mode data st c r :
  mode ≠ "replace" →
  ACL_rule.get (rules st) guild_id c = Some r →
  let st' := foldl (import_entry_does guild_id mode) st data in
  ACL_rule.get (rules st') guild_id c = Some r
  ∧ (c ∈ rejected "duplicate" st ∨ c ∈ dict_keys data →
     c ∈ rejected "duplicate" st').
Proof.
  intros Hmode. revert st.
  induction data as [|[k a] data IH]; intros st Hget; simpl.
  - split; [done|]. intros [?|Hin]; [done|]. by apply elem_of_nil in Hin.
  - pose proof (import_entry_does_keeps guild_id mode st (k, a) c r
                  Hmode Hget) as Hkeep.
    destruct (IH _ Hkeep) as [Hrule Hrej]. split; [done|].
    intros [Hin | Hin]; apply Hrej.
    + left. by apply import_entry_does_rejected.
    + apply elem_of_cons in Hin as [-> | Hin]; [left | by right].
      apply import_entry_does_duplicate; [done | by eexists].
Qed.

(** No round of the loop appends to [result_new] or [result_upd]. *)
Lemma import_fold_results guild_id mode data st :
  let st' := foldl (import_entry_does guild_id mode) st data in
  result_new st' = result_new st ∧ result_upd st' = result_upd st.
Proof.
  revert st. induction data as [|entry data IH]; intros st; simpl; [done|].
  destruct (IH (import_entry_does guild_id mode st entry)) as [-> ->].
  unfold import_entry_does. by case_match.
Qed.

(** Outside mode "replace", a command of the document for which the guild
    already has a rule is added to the local set [result_rej["duplicate"]]
    and its stored rule stays as it was.  In this code every entry passes
    the type and reference checks ([check_bool_passes] and the three
    lemmas after it), so the statement needs no assumption on the
    attributes. *)
Theorem import_duplicate_rejected (groups : list ACL_group.t)
    (table : list ACL_rule.t) (guild_id : Z) (data : pydict) (mode : string)
    (command : string) (rule : ACL_rule.t) :
  mode ≠ "replace" →
  ACL_rule.get table guild_id command = Some rule →
  command ∈ dict_keys data →
  ∃ st, import_rules groups table guild_id data mode = Ok st
        ∧ command ∈ rejected "duplicate" st
        ∧ ACL_rule.get (rules st) guild_id command = Some rule
        ∧ (command ∉ result_new st) ∧ (command ∉ result_upd st).
Proof.
  intros Hmode Hget Hin. eexists. split; [apply import_rules_effect|].
  destruct (import_fold_duplicate guild_id mode data
              (mkImport [] [] initial_rej table) command rule Hmode Hget)
    as [Hrule Hrej].
  destruct (import_fold_results guild_id mode data
              (mkImport [] [] initial_rej table)) as [Hnew Hupd].
  simpl in Hnew, Hupd. rewrite Hnew, Hupd.
  split_and!; [apply Hrej; by right | done | apply not_elem_of_nil ..].
Qed.

Lemma import_duplicate_rejected_witness :
  ∃ st, import_rules [g_admin; g_mod] [r_kick] 7 doc_kick "add" = Ok st
        ∧ "kick" ∈ rejected "duplicate" st
        ∧ ACL_rule.get (rules st) 7 "kick" = Some r_kick
        ∧ ("kick" ∉ result_new st) ∧ ("kick" ∉ result_upd st).
Proof.
  apply (import_duplicate_rejected [g_admin; g_mod] [r_kick] 7 doc_kick
           "add" "kick" r_kick).
  - discriminate.
  - reflexivity.
  - vm_compute. constructor.
Defined.

(** C7: the guild has a rule for "kick" and the document
    {"kick": {"default": true}} is imported in mode "add".  The loop adds
    "kick" to the local set [result_rej["duplicate"]] and leaves the stored
    rule as it is, but the call returns [None]: the caller gets no list of
    rejected commands and no reason. *)
Theorem import_duplicate_not_returned :
  import_rules_returns [g_admin; g_mod] [r_kick] 7 doc_kick "add"
  = Ok PyNone
  ∧ ∃ st, import_rules [g_admin; g_mod] [r_kick] 7 doc_kick "add" = Ok st
          ∧ rejected "duplicate" st = {["kick"]}
          ∧ rules st = [r_kick].
Proof.
  unfold import_rules_returns. rewrite import_rules_effect. split; [done|].
  eexists. split; [done|]. split; [|done].
  vm_compute. reflexivity.
Qed.

(** C1: the document {"ban": {"default": true, "groups_allow": ["ghost"]}},
    imported where no group "ghost" exists, is not rejected: nothing is
    filed under "not group", and a rule for "ban" is stored, with default
    false.  The same happens under the key "groupsAllow". *)
Theorem import_unknown_group_committed :
  ("ghost" ∉ ACL_group.name <$> ACL_group.get_all [g_admin; g_mod] 7)
  ∧ (∃ st, import_rules [g_admin; g_mod] [] 7 doc_ghost "add" = Ok st
           ∧ rejected "not group" st = ∅
           ∧ rules st = [ACL_rule.mk 1 7 "ban" false [] [] [] []])
  ∧ (∃ st, import_rules [g_admin; g_mod] [] 7 doc_ghost_camel "add" = Ok st
           ∧ rejected "not group" st = ∅
           ∧ rules st = [ACL_rule.mk 1 7 "ban" false [] [] [] []]).
Proof.
  split_and!.
  - cbn. set_solver.
  - eexists. split; [apply import_rules_effect|]. done.
  - eexists. split; [apply import_rules_effect|]. done.
Qed.

(** The document that [acl_rule_export] builds never has another key than
    the literal "command". *)
Lemma export_keys (rules : list ACL_rule.t) (export export' : pydict) :
  for_each export_step rules export = Ok export' →
  dict_keys export ⊆ ["command"] → dict_keys export' ⊆ ["command"].
Proof.
  revert export. induction rules as [|rule rules IH]; intros export; simpl.
  - by intros [= <-].
  - intros Hrun Hkeys. eapply IH; [exact Hrun|].
    clear -Hkeys. induction export as [|[k v] export IHe]; simpl.
    + set_solver.
    + case_bool_decide; simpl in *; set_solver.
Qed.

(** C2: the export of five rules is a document with the single key
    "command", which holds the fields of the last rule; none of the five
    command names is a key of it.  The reply counts five rules. *)
Theorem export_five_rules_one_entry :
  acl_rule_export [r_kick; r_ban; r_mute; r_warn; r_purge] 7
  = Ok ([("command",
          PyDict [("default", PyBool true);
                  ("users_allow", PyList []);
                  ("users_deny", PyList []);
                  ("groups_allow", PyList [PyStr "admin"; PyStr "mod"]);
                  ("groups_deny", PyList [])])], 5).
Proof. reflexivity. Qed.

(** C4: the document {"ban": {"default": true, "groups_allow": ["mod"],
    "users_deny": [42]}} passes every check and meets no stored rule, yet
    "ban" is in neither result list, and the rule that is stored has
    default false and empty lists. *)
Theorem import_valid_entry_unreported :
  ("mod" ∈ ACL_group.name <$> ACL_group.get_all [g_admin; g_mod] 7)
  ∧ import_rules [g_admin; g_mod] [] 7 doc_valid "add"
    = Ok (mkImport [] [] initial_rej
            [ACL_rule.mk 1 7 "ban" false [] [] [] []]).
Proof.
  split.
  - cbn. set_solver.
  - by rewrite import_rules_effect.
Qed.

(** C5: the rule set {ban} (default true, one allowed user, one denied
    group) is exported and the document imported back in mode "replace".
    Into the same table this leaves "ban" as it was and adds a rule for
    the command "command"; into an empty table it gives the rule "command"
    alone.  The new rule has default false and empty lists. *)
Theorem export_import_not_inverse :
  (∃ st, export_then_import [g_admin; g_mod] [r_ban] [r_ban] 7 = Ok st
         ∧ rules st = [r_ban; ACL_rule.mk 3 7 "command" false [] [] [] []])
  ∧ (∃ st, export_then_import [g_admin; g_mod] [r_ban] [] 7 = Ok st
           ∧ rules st = [ACL_rule.mk 1 7 "command" false [] [] [] []]).
Proof.
  split; eexists; (split; [unfold export_then_import; simpl;
                           apply import_rules_effect | done]).
Qed.

(** ** The group listing on a chain *)

(** C3: the chain a <- b <- c has no cycle.  Fetched as c, b, a, the
    listing gives "c" the level 1, the level of its parent "b", and not
    that level plus one; fetched as a, b, c, the levels are 0, 1, 2. *)
Theorem listing_levels_depend_on_order :
  acl_group_list [g_c; g_b; g_a]
  = Some (ListingRows [(1, g_c); (1, g_b); (0, g_a)])
  ∧ acl_group_list [g_a; g_b; g_c]
    = Some (ListingRows [(0, g_a); (1, g_b); (2, g_c)]).
Proof. split; vm_compute; reflexivity. Qed.

(** ** The group commands *)

(** [acl group add] answers a name outside the pattern with the error
    and leaves the table as it is. *)
Lemma acl_group_add_bad_name table guild name parent role_id :
  fullmatch_RE_NAME name = false →
  acl_group_add table guild name parent role_id = (table, ReplyBadName).
Proof. intros Hbad. unfold acl_group_add. by rewrite Hbad. Qed.

(** [acl group add] with the empty string as parent stores no parent. *)
Lemma acl_group_add_empty_parent table guild name role_id :
  fullmatch_RE_NAME name = true →
  ∃ table' group,
    acl_group_add table guild name "" role_id = (table', ReplyEmbed group)
    ∧ ACL_group.parent group = None.
Proof.
  intros Hok. unfold acl_group_add, ACL_group.add. rewrite Hok. simpl.
  by eexists _, _.
Qed.

(** C8: [acl group update mod name "bad name!"] is answered with the
    group, not with the error, and the table then holds a group whose
    name does not match the pattern. *)
Theorem acl_group_update_stores_bad_name (py_int : string → res Z) :
  fullmatch_RE_NAME "bad name!" = false
  ∧ acl_group_update py_int [g_admin; g_mod] 7 "mod" "name" "bad name!"
    = Ok ([g_admin; ACL_group.mk 2 7 "bad name!" (Some "admin") 222],
          ReplyEmbed (ACL_group.mk 2 7 "bad name!" (Some "admin") 222)).
Proof. split; reflexivity. Qed.

(** C9: [acl group update mod parent ""] stores the empty string as the
    parent of "mod", not the null parent. *)
Theorem acl_group_update_empty_parent (py_int : string → res Z) :
  acl_group_update py_int [g_admin; g_mod] 7 "mod" "parent" ""
  = Ok ([g_admin; ACL_group.mk 2 7 "mod" (Some "") 222],
        ReplyEmbed (ACL_group.mk 2 7 "mod" (Some "") 222)).
Proof. reflexivity. Qed.

(** ** The authorization decision *)

Lemma existsb_user (user_id : Z) (users : list Z) :
  existsb (Z.eqb user_id) users = true ↔ user_id ∈ users.
Proof.
  rewrite existsb_exists. split.
  - intros (x & Hx & ->%Z.eqb_eq). by apply list_elem_of_In.
  - intros Hin. exists user_id. split; [by apply list_elem_of_In|].
    apply Z.eqb_refl.
Qed.

Lemma existsb_group (user_groups : gset string) (groups : list string) :
  existsb (λ g, bool_decide (g ∈ user_groups)) groups = true
  ↔ user_groups ∩ list_to_set groups ≠ ∅.
Proof.
  rewrite existsb_exists. split.
  - intros (g & Hg%list_elem_of_In & Hin%bool_decide_eq_true). set_solver.
  - intros Hne. apply set_choose_L in Hne as [g Hg].
    exists g. split; [apply list_elem_of_In | apply bool_decide_eq_true];
      set_solver.
Qed.

(** C6: the decision follows the precedence users_deny, users_allow,
    groups_deny, groups_allow, default: a denied user is refused whatever
    the groups and the default say; an allowed user who is not denied is
    let in whatever the groups and the default say; otherwise a group in
    groups_deny refuses, else a group in groups_allow allows, else the
    default decides. *)
Theorem authorize_precedence (rule : ACL_rule.t) (user_id : Z)
    (user_groups : gset string) :
  (user_id ∈ ACL_rule.users_deny rule →
   authorize rule user_id user_groups = false)
  ∧ (user_id ∉ ACL_rule.users_deny rule →
     user_id ∈ ACL_rule.users_allow rule →
     authorize rule user_id user_groups = true)
  ∧ (user_id ∉ ACL_rule.users_deny rule →
     user_id ∉ ACL_rule.users_allow rule →
     user_groups ∩ list_to_set (ACL_rule.groups_deny rule) ≠ ∅ →
     authorize rule user_id user_groups = false)
  ∧ (user_id ∉ ACL_rule.users_deny rule →
     user_id ∉ ACL_rule.users_allow rule →
     user_groups ∩ list_to_set (ACL_rule.groups_deny rule) = ∅ →
     user_groups ∩ list_to_set (ACL_rule.groups_allow rule) ≠ ∅ →
     authorize rule user_id user_groups = true)
  ∧ (user_id ∉ ACL_rule.users_deny rule →
     user_id ∉ ACL_rule.users_allow rule →
     user_groups ∩ list_to_set (ACL_rule.groups_deny rule) = ∅ →
     user_groups ∩ list_to_set (ACL_rule.groups_allow rule) = ∅ →
     authorize rule user_id user_groups = ACL_rule.default rule).
Proof.
  unfold authorize.
  destruct (existsb (Z.eqb user_id) (ACL_rule.users_deny rule)) eqn:Hud;
    [apply existsb_user in Hud | apply not_true_iff_false in Hud;
                                 rewrite existsb_user in Hud].
  { split_and!; intros; done. }
  destruct (existsb (Z.eqb user_id) (ACL_rule.users_allow rule)) eqn:Hua;
    [apply existsb_user in Hua | apply not_true_iff_false in Hua;
                                 rewrite existsb_user in Hua].
  { split_and!; intros; done. }
  destruct (existsb _ (ACL_rule.groups_deny rule)) eqn:Hgd;
    [apply existsb_group in Hgd | apply not_true_iff_false in Hgd;
                                  rewrite existsb_group in Hgd].
  { split_and!; intros; done. }
  destruct (existsb _ (ACL_rule.groups_allow rule)) eqn:Hga;
    [apply existsb_group in Hga | apply not_true_iff_false in Hga;
                                  rewrite existsb_group in Hga].
  { split_and!; intros; done. }
  split_and!; intros; done.
Qed.

(** The spec's scenario (user 42 is in "mod", which the rule for "kick"
    allows, and is denied by id), and one case for each lower tier. *)
Lemma authorize_precedence_witness :
  authorize r_kick 42 {["mod"]} = false
  ∧ authorize r_ban 7 {["mod"]} = true
  ∧ authorize r_ban 5 {["mod"]} = false
  ∧ authorize r_kick 5 {["mod"]} = true
  ∧ authorize r_kick 5 ∅ = ACL_rule.default r_kick.
Proof.
  split_and!.
  - apply (proj1 (authorize_precedence r_kick 42 {["mod"]})).
    cbn. set_solver.
  - apply (proj1 (proj2 (authorize_precedence r_ban 7 {["mod"]})));
      cbn; set_solver.
  - apply (proj1 (proj2 (proj2 (authorize_precedence r_ban 5 {["mod"]}))));
      cbn; set_solver.
  - apply (proj1 (proj2 (proj2 (proj2
             (authorize_precedence r_kick 5 {["mod"]})))));
      cbn; set_solver.
  - apply (proj2 (proj2 (proj2 (proj2 (authorize_precedence r_kick 5 ∅)))));
      cbn; set_solver.
Defined.

(** * Further properties of the listing *)

Lemma render_groups (groups : list ACL_group.t) levels visited :
  (render groups levels visited).*2 = omap (λ i, groups !! i) visited.
Proof.
  unfold render. rewrite list_fmap_omap.
  induction visited as [|i visited IH]; [done|].
  cbn. rewrite IH. by destruct (groups !! i).
Qed.

Lemma omap_lookup_seq {A} (pre l : list A) :
  omap (λ i, (pre ++ l) !! i) (seq (length pre) (length l)) = l.
Proof.
  revert pre. induction l as [|x l IH]; intros pre; simpl; [done|].
  rewrite list_lookup_middle by done. simpl. f_equal.
  specialize (IH (pre ++ [x])).
  rewrite <- app_assoc, length_app in IH. simpl in IH.
  by rewrite Nat.add_1_r in IH.
Qed.

Lemma elem_of_render (groups : list ACL_group.t) levels visited l g :
  (l, g) ∈ render groups levels visited ↔
  ∃ i, i ∈ visited ∧ groups !! i = Some g ∧ l = default 0 (levels !! i).
Proof.
  unfold render. rewrite list_elem_of_omap. split.
  - intros (i & Hi & Hrow). exists i. split; [done|].
    destruct (groups !! i); simpl in Hrow; [|done].
    by injection Hrow as <- <-.
  - intros (i & Hi & Hg & ->). exists i. split; [done|]. by rewrite Hg.
Qed.

(** The reply of [acl_group_list] unfolded: the table is the rendering of
    a run of [bfs] that came to its end. *)
Lemma acl_group_list_rows (groups : list ACL_group.t) rows :
  acl_group_list groups = Some (ListingRows rows) →
  ∃ levels visited,
    bfs (bfs_fuel (children_table groups)) groups = Some (levels, visited)
    ∧ rows = render groups levels visited.
Proof.
  unfold acl_group_list, acl_group_list_fuel.
  destruct groups as [|g groups]; [done|].
  destruct (bfs _ (g :: groups)) as [[levels visited]|]; simpl; [|done].
  intros [= <-]. by exists levels, visited.
Qed.

(** X1: for every non-empty list of groups, with cycles, unknown parents
    or repeated names, the table of [acl_group_list] has exactly the
    fetched groups as its rows, each one once. *)
Theorem listing_rows_are_the_groups (groups : list ACL_group.t) :
  groups ≠ [] →
  ∃ rows, acl_group_list groups = Some (ListingRows rows)
          ∧ rows.*2 ≡ₚ groups.
Proof.
  intros Hne.
  destruct (bfs_loop_enough (children_table groups)
              (bfs_fuel (children_table groups)) (initial_levels groups)
              (seq 0 (length groups)) []) as [[levels visited] Hrun].
  { unfold bfs_fuel, children_table.
    rewrite length_seq, length_fmap. lia. }
  fold (bfs (bfs_fuel (children_table groups)) groups) in Hrun.
  exists (render groups levels visited). split.
  - unfold acl_group_list, acl_group_list_fuel.
    destruct groups; [done|]. by rewrite Hrun.
  - rewrite render_groups.
    rewrite (bfs_visits_each_once _ _ _ _ Hrun).
    pose proof (omap_lookup_seq [] groups) as Hall. simpl in Hall.
    by rewrite Hall.
Qed.

Lemma listing_rows_are_the_groups_witness :
  ∃ rows, acl_group_list [g_c; g_b; g_a] = Some (ListingRows rows)
          ∧ rows.*2 ≡ₚ [g_c; g_b; g_a].
Proof. apply (listing_rows_are_the_groups [g_c; g_b; g_a]). discriminate. Defined.

Lemma ensure_key_member key rel k kids (i : ref) :
  rel !! k = Some kids → i ∈ kids →
  ∃ kids', ensure_key key rel !! k = Some kids' ∧ i ∈ kids'.
Proof.
  intros Hk Hi. unfold ensure_key.
  destruct (rel !! key) eqn:Hkey; [by exists kids|].
  destruct (decide (key = k)) as [-> | Hne]; [congruence|].
  exists kids. by rewrite lookup_insert_ne.
Qed.

Lemma relate_member rel ig k kids (i : ref) :
  rel !! k = Some kids → i ∈ kids →
  ∃ kids', relate rel ig !! k = Some kids' ∧ i ∈ kids'.
Proof.
  intros Hk Hi. unfold relate.
  destruct (ensure_key_member (ACL_group.name ig.2) rel k kids i Hk Hi)
    as (kids1 & Hk1 & Hi1).
  destruct (ACL_group.parent ig.2) as [p|]; [|by exists kids1].
  destruct (ensure_key_member p _ k kids1 i Hk1 Hi1) as (kids2 & Hk2 & Hi2).
  destruct (decide (p = k)) as [-> | Hne].
  - rewrite lookup_insert_eq, Hk2. simpl. eexists. split; [done|].
    apply elem_of_app. by left.
  - rewrite lookup_insert_ne by done. by exists kids2.
Qed.

Lemma relate_child rel (i : ref) g p :
  ACL_group.parent g = Some p →
  ∃ kids, relate rel (i, g) !! p = Some kids ∧ i ∈ kids.
Proof.
  intros Hp. unfold relate. simpl. rewrite Hp.
  rewrite lookup_insert_eq. eexists. split; [done|].
  apply elem_of_app. right. by apply list_elem_of_singleton.
Qed.

(** Every group with a parent name is in the list under that name. *)
Lemma relationships_child (groups : list ACL_group.t) i g p :
  groups !! i = Some g → ACL_group.parent g = Some p →
  ∃ kids, relationships groups !! p = Some kids ∧ i ∈ kids.
Proof.
  unfold relationships, enumerate. intros Hi Hp.
  assert ((i, g) ∈ imap (λ i g, (i, g)) groups) as Hin.
  { apply elem_of_lookup_imap. by exists i, g. }
  revert Hin. generalize (imap (λ i g, (i, g)) groups).
  generalize (∅ : gmap string (list ref)).
  intros rel l. revert rel. induction l as [|ig l IH]; intros rel Hin.
  - by apply elem_of_nil in Hin.
  - simpl. apply elem_of_cons in Hin as [<- | Hin]; [|by apply IH].
    destruct (relate_child rel i g p Hp) as (kids & Hk & Hmem).
    revert Hk Hmem. generalize (relate rel (i, g)). clear.
    intros rel. revert rel kids.
    induction l as [|ig l IH]; intros rel kids Hk Hmem; simpl.
    + by exists kids.
    + destruct (relate_member rel ig p kids i Hk Hmem) as (kids' & Hk' & Hi').
      by eapply IH.
Qed.

(** [group.children] holds exactly the groups whose parent name is the
    name of the group. *)
Lemma children_table_spec (groups : list ACL_group.t) j gj i :
  groups !! j = Some gj →
  i ∈ default [] (children_table groups !! j) ↔
  ∃ gi, groups !! i = Some gi
        ∧ ACL_group.parent gi = Some (ACL_group.name gj).
Proof.
  intros Hj. unfold children_table. rewrite list_lookup_fmap, Hj. simpl.
  split.
  - destruct (relationships groups !! ACL_group.name gj) as [kids|] eqn:Hrel;
      simpl; [|by intros ?%elem_of_nil].
    intros Hi. by eapply relationships_parent.
  - intros (gi & Hi & Hp).
    destruct (relationships_child groups i gi _ Hi Hp) as (kids & -> & Hmem).
    done.
Qed.

Lemma bfs_level_zero (groups : list ACL_group.t) fuel levels visited i g :
  bfs fuel groups = Some (levels, visited) →
  groups !! i = Some g →
  (∀ g', g' ∈ groups → ACL_group.parent g ≠ Some (ACL_group.name g')) →
  levels !! i = Some 0.
Proof.
  unfold bfs. intros Hrun Hg Hfree.
  rewrite (bfs_loop_level_kept _ _ _ _ _ _ _ i) with (2 := Hrun).
  - unfold initial_levels. by rewrite list_lookup_fmap, Hg.
  - intros j kids Hj Hi.
    assert (is_Some (groups !! j)) as [gj Hgj].
    { apply lookup_lt_is_Some. apply lookup_lt_Some in Hj.
      unfold children_table in Hj. by rewrite length_fmap in Hj. }
    destruct (proj1 (children_table_spec groups j gj i Hgj)) as (gi & Hgi & Hp).
    { by rewrite Hj. }
    apply (Hfree gj); [by eapply list_elem_of_lookup_2 | congruence].
Qed.

Lemma set_levels_length g kids levels :
  length (set_levels g kids levels) = length levels.
Proof.
  unfold set_levels. revert levels.
  induction kids as [|k kids IH]; intros levels; simpl; [done|].
  by rewrite IH, length_insert.
Qed.

Lemma set_levels_indented g kids levels i :
  indented levels i ∨ (i ∈ kids ∧ i < length levels) →
  indented (set_levels g kids levels) i.
Proof.
  unfold set_levels, indented. revert levels.
  induction kids as [|k kids IH]; intros levels; simpl.
  - intros [? | [?%elem_of_nil _]]; done.
  - intros Hi. apply IH. rewrite length_insert.
    destruct (decide (k = i)) as [-> | Hne].
    + destruct (decide (i < length levels)) as [Hlt | Hge].
      * left. rewrite list_lookup_insert_eq by done. simpl. lia.
      * rewrite list_insert_ge by lia.
        destruct Hi as [? | [_ ?]]; [by left | lia].
    + rewrite list_lookup_insert_ne by done.
      destruct Hi as [? | [[? | ?]%elem_of_cons ?]]; [by left | done | by right].
Qed.

Lemma bfs_loop_length children fuel levels queue visited levels' visited' :
  bfs_loop fuel children levels queue visited = Some (levels', visited') →
  length levels' = length levels.
Proof.
  revert levels queue visited.
  induction fuel as [|fuel IH]; intros levels queue visited Hrun; [done|].
  destruct queue as [|g queue]; simpl in Hrun.
  - by injection Hrun as <- _.
  - case_decide; [by eapply IH|].
    rewrite (IH _ _ _ Hrun). apply set_levels_length.
Qed.

Lemma bfs_loop_indented_kept children fuel levels queue visited levels'
    visited' i :
  bfs_loop fuel children levels queue visited = Some (levels', visited') →
  indented levels i → indented levels' i.
Proof.
  revert levels queue visited.
  induction fuel as [|fuel IH]; intros levels queue visited Hrun Hi; [done|].
  destruct queue as [|g queue]; simpl in Hrun.
  - by injection Hrun as <- _.
  - case_decide; [by eapply IH|].
    eapply IH; [done|]. apply set_levels_indented. by left.
Qed.

Lemma bfs_loop_indented children fuel levels queue visited levels' visited'
    i j :
  bfs_loop fuel children levels queue visited = Some (levels', visited') →
  j ∈ visited' → j ∉ visited →
  i ∈ default [] (children !! j) → i < length levels →
  indented levels' i.
Proof.
  revert levels queue visited.
  induction fuel as [|fuel IH];
    intros levels queue visited Hrun Hj Hnew Hi Hlen; [done|].
  destruct queue as [|g queue]; simpl in Hrun.
  - by injection Hrun as _ <-.
  - case_decide as Hseen; [by eapply IH|].
    destruct (decide (j = g)) as [-> | Hne].
    + eapply bfs_loop_indented_kept; [done|].
      apply set_levels_indented. by right.
    + eapply IH; [done | done | | done |].
      * rewrite elem_of_app, list_elem_of_singleton. tauto.
      * by rewrite set_levels_length.
Qed.

Lemma bfs_level_positive (groups : list ACL_group.t) fuel levels visited
    i g j g' :
  bfs fuel groups = Some (levels, visited) →
  groups !! i = Some g → groups !! j = Some g' →
  ACL_group.parent g = Some (ACL_group.name g') →
  indented levels i.
Proof.
  unfold bfs. intros Hrun Hi Hj Hp.
  apply (bfs_loop_indented _ _ _ _ _ _ _ i j Hrun).
  - eapply bfs_loop_covers; [done|]. right.
    apply elem_of_seq. apply lookup_lt_Some in Hj. lia.
  - apply not_elem_of_nil.
  - apply (children_table_spec groups j g' i Hj). by exists g.
  - unfold initial_levels. rewrite length_fmap. by eapply lookup_lt_Some.
Qed.

(** X2: in the table of [acl_group_list], whatever the order of the groups
    and also with cycles, a group stands at level 0 exactly when no group
    of the list bears the name it has as parent (it has no parent, or the
    parent is unknown); every other group is indented. *)
Theorem listing_level_zero_iff (groups : list ACL_group.t) rows l g :
  acl_group_list groups = Some (ListingRows rows) →
  (l, g) ∈ rows →
  l = 0 ↔
  ∀ g', g' ∈ groups → ACL_group.parent g ≠ Some (ACL_group.name g').
Proof.
  intros (levels & visited & Hrun & ->)%acl_group_list_rows.
  intros (i & _ & Hi & ->)%elem_of_render. split.
  - intros Hzero g' [j Hj]%list_elem_of_lookup Hp.
    pose proof (bfs_level_positive _ _ _ _ _ _ _ _ Hrun Hi Hj Hp) as Hpos.
    unfold indented in Hpos. lia.
  - intros Hfree. by rewrite (bfs_level_zero _ _ _ _ _ _ Hrun Hi Hfree).
Qed.

Lemma listing_level_zero_iff_witness :
  0 = 0 ↔
  ∀ g', g' ∈ [g_c; g_b; g_a] →
        ACL_group.parent g_a ≠ Some (ACL_group.name g').
Proof.
  apply (listing_level_zero_iff [g_c; g_b; g_a]
           [(1, g_c); (1, g_b); (0, g_a)] 0 g_a).
  - vm_compute. reflexivity.
  - apply elem_of_cons. right. apply elem_of_cons. right. apply elem_of_cons.
    by left.
Defined.

(** ** Levels when parents are fetched before their children *)

Lemma set_levels_child g kids levels i :
  g ∉ kids → i ∈ kids → i < length levels →
  default 0 (set_levels g kids levels !! i) = default 0 (levels !! g) + 1.
Proof.
  unfold set_levels. revert levels.
  induction kids as [|k kids IH]; intros levels Hg Hi Hlen; simpl.
  - by apply elem_of_nil in Hi.
  - apply not_elem_of_cons in Hg as [Hgk Hg].
    destruct (decide (i ∈ kids)) as [Hin | Hout].
    + rewrite IH by (done || by rewrite length_insert).
      by rewrite list_lookup_insert_ne.
    + apply elem_of_cons in Hi as [-> | Hi]; [|done].
      fold (set_levels g kids (<[k:=default 0 (levels !! g) + 1]> levels)).
      rewrite set_levels_other by done.
      by rewrite list_lookup_insert_eq.
Qed.

Section ParentsFirst.
Variable children : list (list ref).
Variable n : nat.

Let par (i j : ref) : Prop := i ∈ default [] (children !! j).

Hypothesis par_earlier : ∀ i j, par i j → j < i.
Hypothesis par_unique : ∀ i j j', par i j → par i j' → j = j'.
Hypothesis par_range : ∀ i j, par i j → i < n.

Lemma bfs_loop_parents_first fuel levels extra m visited levels' visited' :
  bfs_loop fuel children levels (extra ++ seq m (n - m)) visited
  = Some (levels', visited') →
  length levels = n →
  (∀ q j, q ∈ extra → par q j → j ∈ visited) →
  (∀ k, k < m → k ∈ visited) →
  (∀ i j, par i j → i ∈ visited → j ∈ visited) →
  (∀ i j, par i j → j ∈ visited →
          default 0 (levels !! i) = default 0 (levels !! j) + 1) →
  ∀ i j, par i j → j ∈ visited' →
         default 0 (levels' !! i) = default 0 (levels' !! j) + 1.
Proof.
  revert levels extra m visited.
  induction fuel as [|fuel IH];
    intros levels extra m visited Hrun Hlen Hextra Hbelow Hclosed Hlev; [done|].
  assert (∀ g rest extra' m',
            extra ++ seq m (n - m) = g :: rest →
            rest = extra' ++ seq m' (n - m') →
            (∀ j, par g j → j ∈ visited) →
            (∀ q j, q ∈ extra' → par q j → j ∈ visited) →
            (∀ k, k < m' → k ∈ visited ∨ k = g) →
            ∀ i j, par i j → j ∈ visited' →
              default 0 (levels' !! i) = default 0 (levels' !! j) + 1)
    as Hstep.
  { intros g rest extra' m' Hq -> Hparent Hextra' Hbelow'.
    rewrite Hq in Hrun. simpl in Hrun. case_decide as Hseen.
    - eapply IH; try done.
      intros k Hk. by destruct (Hbelow' k Hk) as [? | ->].
    - set (kids := default [] (children !! g)) in *.
      assert (g ∉ kids) as Hself.
      { intros Hin. apply par_earlier in Hin. lia. }
      rewrite app_assoc in Hrun.
      eapply IH; [exact Hrun | by rewrite set_levels_length | | | |].
      + intros q j [Hq' | Hq']%elem_of_app Hpar.
        * rewrite (par_unique _ _ _ Hpar Hq'). set_solver.
        * apply elem_of_app. left. by eapply Hextra'.
      + intros k Hk. apply elem_of_app.
        destruct (Hbelow' k Hk) as [? | ->]; [by left | right].
        by apply list_elem_of_singleton.
      + intros i j Hpar [Hi | ->%list_elem_of_singleton]%elem_of_app;
          apply elem_of_app; left; [by eapply Hclosed | by apply Hparent].
      + intros i j Hpar [Hj | ->%list_elem_of_singleton]%elem_of_app.
        * assert (i ∉ kids) as Hi.
          { intros Hin. by rewrite (par_unique _ _ _ Hpar Hin) in Hj. }
          assert (j ∉ kids) as Hj'.
          { intros Hin. apply Hseen. by eapply Hclosed. }
          rewrite !set_levels_other by done. by apply Hlev.
        * rewrite (set_levels_child g kids levels i); try done.
          -- by rewrite set_levels_other.
          -- rewrite Hlen. by eapply par_range. }
  destruct extra as [|g extra]; simpl in *.
  - destruct (n - m) as [|r] eqn:Hr; simpl in *.
    + injection Hrun as <- <-. auto.
    + apply (Hstep m (seq (S m) r) [] (S m)).
      * done.
      * simpl. f_equal. lia.
      * intros j Hpar. apply Hbelow. by apply par_earlier.
      * intros q j Hq. by apply elem_of_nil in Hq.
      * intros k Hk. destruct (decide (k = m)); [by right | left].
        apply Hbelow. lia.
  - apply (Hstep g (extra ++ seq m (n - m)) extra m).
    + done.
    + done.
    + intros j. apply Hextra. by left.
    + intros q j Hq. apply Hextra. by right.
    + intros k Hk. left. by apply Hbelow.
Qed.

End ParentsFirst.

Lemma children_table_child (groups : list ACL_group.t) i j :
  i ∈ default [] (children_table groups !! j) →
  ∃ gi gj, groups !! i = Some gi ∧ groups !! j = Some gj
           ∧ ACL_group.parent gi = Some (ACL_group.name gj).
Proof.
  intros Hi.
  destruct (groups !! j) as [gj|] eqn:Hj.
  - destruct (proj1 (children_table_spec groups j gj i Hj) Hi)
      as (gi & Hgi & Hp).
    by exists gi, gj.
  - unfold children_table in Hi. rewrite list_lookup_fmap, Hj in Hi.
    by apply elem_of_nil in Hi.
Qed.

(** X3: when the names are unique and every group comes after the group
    it names as parent, the table of [acl_group_list] shows every group one
    level below its parent. *)
Theorem listing_levels_parents_first (groups : list ACL_group.t) rows
    l g l' g' :
  acl_group_list groups = Some (ListingRows rows) →
  parents_first groups →
  NoDup (ACL_group.name <$> groups) →
  (l, g) ∈ rows → (l', g') ∈ rows →
  ACL_group.parent g = Some (ACL_group.name g') →
  l = l' + 1.
Proof.
  intros (levels & visited & Hrun & ->)%acl_group_list_rows Hfirst Hnames.
  intros (i & _ & Hi & ->)%elem_of_render (j & _ & Hj & ->)%elem_of_render Hp.
  unfold bfs in Hrun.
  apply (bfs_loop_parents_first (children_table groups) (length groups))
    with (fuel := bfs_fuel (children_table groups))
         (levels := initial_levels groups) (extra := []) (m := 0)
         (visited := []) (visited' := visited).
  - intros a b (ga & gb & Ha & Hb & Hab)%children_table_child.
    by eapply Hfirst.
  - intros a b b' (ga & gb & Ha & Hb & Hab)%children_table_child
                  (ga' & gb' & Ha' & Hb' & Hab')%children_table_child.
    eapply (NoDup_lookup _ _ _ _ Hnames).
    + by rewrite list_lookup_fmap, Hb.
    + rewrite list_lookup_fmap, Hb'. simpl. congruence.
  - intros a b (ga & gb & Ha%lookup_lt_Some & _)%children_table_child. done.
  - simpl. by rewrite Nat.sub_0_r.
  - unfold initial_levels. by rewrite length_fmap.
  - intros q b Hq. by apply elem_of_nil in Hq.
  - lia.
  - intros a b _ Ha. by apply elem_of_nil in Ha.
  - intros a b _ Hb. by apply elem_of_nil in Hb.
  - apply (children_table_spec groups j g' i Hj). by exists g.
  - eapply bfs_loop_covers; [done|]. right.
    apply elem_of_seq. apply lookup_lt_Some in Hj. lia.
Qed.

Lemma listing_levels_parents_first_witness : 2 = 1 + 1.
Proof.
  apply (listing_levels_parents_first [g_a; g_b; g_c]
           [(0, g_a); (1, g_b); (2, g_c)] 2 g_c 1 g_b).
  - vm_compute. reflexivity.
  - intros i j gi gj Hi Hj Hp.
    destruct i as [|[|[|i]]]; destruct j as [|[|[|j]]];
      simpl in Hi, Hj; try discriminate;
      injection Hi as <-; injection Hj as <-;
      (discriminate || lia).
  - cbn. repeat constructor; set_solver.
  - set_solver.
  - set_solver.
  - reflexivity.
Defined.

(** * Further properties of the group commands *)

(** X4: [acl group add] keeps a table in which every name matches the
    pattern in that state, whether it answers with the error or stores
    the group. *)
Theorem acl_group_add_keeps_valid_names table guild name parent role_id :
  valid_names table →
  valid_names (acl_group_add table guild name parent role_id).1.
Proof.
  unfold valid_names, acl_group_add. intros Hvalid.
  destruct (fullmatch_RE_NAME name) eqn:Hname; simpl; [|done].
  unfold ACL_group.add. simpl.
  apply Forall_app. split; [done|]. by repeat constructor.
Qed.

Lemma acl_group_add_keeps_valid_names_witness :
  valid_names (acl_group_add [g_admin; g_mod] 7 "h-elper" "mod" 5).1
  ∧ valid_names (acl_group_add [g_admin; g_mod] 7 "no way" "mod" 5).1.
Proof.
  split.
  - apply (acl_group_add_keeps_valid_names [g_admin; g_mod] 7 "h-elper").
    repeat constructor.
  - apply (acl_group_add_keeps_valid_names [g_admin; g_mod] 7 "no way").
    repeat constructor.
Defined.

Lemma group_get_after_replace table guild name (old g : ACL_group.t) :
  ACL_group.get table guild name = Some old →
  ACL_group.guild_id g = guild → ACL_group.name g = name →
  ACL_group.get
    ((λ r, if bool_decide (ACL_group.id r = ACL_group.id old) then g else r)
       <$> table) guild name = Some g.
Proof.
  unfold ACL_group.get. intros Hget Hguild Hname.
  induction table as [|r table IH]; simpl in *; [done|].
  destruct (bool_decide (ACL_group.id r = ACL_group.id old)) eqn:Hid.
  - by rewrite bool_decide_eq_true_2.
  - destruct (bool_decide (_ ∧ _)) eqn:Hmatch; [|by apply IH].
    injection Hget as ->. by rewrite bool_decide_eq_true_2 in Hid.
Qed.

Lemma group_get_after_append table guild name (g : ACL_group.t) :
  ACL_group.get table guild name = None →
  ACL_group.guild_id g = guild → ACL_group.name g = name →
  ACL_group.get (table ++ [g]) guild name = Some g.
Proof.
  unfold ACL_group.get. intros Hget Hguild Hname.
  induction table as [|r table IH]; simpl in *.
  - by rewrite bool_decide_eq_true_2.
  - destruct (bool_decide _); [done | by apply IH].
Qed.

(** X5: a name that matches the pattern and that no group of the guild
    bears yet is stored and found again: [acl group add] appends the group
    to the table and answers with it; the group carries the name, the role
    id and the guild given, has the parent given, or none when the parent
    is the empty string, and is what [ACL_group.get] then returns under
    that name.  That a group of the parent's name exists is not asked. *)
Theorem acl_group_add_then_get table guild name parent role_id :
  fullmatch_RE_NAME name = true →
  ACL_group.get table guild name = None →
  ∃ group,
    acl_group_add table guild name parent role_id
    = (table ++ [group], ReplyEmbed group)
    ∧ ACL_group.get (table ++ [group]) guild name = Some group
    ∧ ACL_group.name group = name
    ∧ ACL_group.guild_id group = guild
    ∧ ACL_group.role_id group = role_id
    ∧ ACL_group.parent group
      = (if decide (parent = "") then None else Some parent).
Proof.
  intros Hname Hnew. unfold acl_group_add, ACL_group.add. rewrite Hname.
  simpl.
  assert ((if String.length parent =? 0 then None else Some parent)
          = (if decide (parent = "") then None else Some parent)) as ->.
  { destruct (decide (parent = "")) as [-> | Hp]; [done|].
    by destruct parent. }
  eexists. split; [done|]. split_and!; try done.
  by apply group_get_after_append.
Qed.

Lemma acl_group_add_then_get_witness :
  ∃ group,
    acl_group_add [g_admin; g_mod] 7 "helper" "" 5
    = ([g_admin; g_mod] ++ [group], ReplyEmbed group)
    ∧ ACL_group.get ([g_admin; g_mod] ++ [group]) 7 "helper" = Some group
    ∧ ACL_group.name group = "helper"
    ∧ ACL_group.guild_id group = 7%Z
    ∧ ACL_group.role_id group = 5%Z
    ∧ ACL_group.parent group = None.
Proof.
  apply (acl_group_add_then_get [g_admin; g_mod] 7 "helper" "" 5);
    reflexivity.
Defined.

(** * Further properties of export and import *)

Lemma export_step_effect export rule :
  export_step export rule
  = Ok (dict_set "command" (exported_fields rule) export).
Proof. reflexivity. Qed.

Lemma export_loop rules export :
  export = [] ∨ (∃ v, export = [("command", v)]) →
  for_each export_step rules export
  = Ok (match last rules with
        | Some r => [("command", exported_fields r)]
        | None => export
        end).
Proof.
  revert export. induction rules as [|r rules IH]; intros export Hexport;
    [done|].
  cbn [for_each]. rewrite export_step_effect. simpl.
  rewrite IH.
  - rewrite last_cons. destruct (last rules); [done|].
    by destruct Hexport as [-> | [v ->]].
  - right. destruct Hexport as [-> | [v ->]]; by eexists.
Qed.

(** X6: [acl_rule_export] raises nothing, and its document is empty when
    the guild has no rule and otherwise holds one entry, under the key
    "command", with the default and the four lists of the last rule
    fetched; the count in the reply is the number of rules. *)
Theorem acl_rule_export_document (table : list ACL_rule.t) (guild : Z) :
  acl_rule_export table guild
  = Ok (match last (ACL_rule.get_all table guild) with
        | Some r => [("command", exported_fields r)]
        | None => []
        end,
        length (ACL_rule.get_all table guild)).
Proof.
  unfold acl_rule_export. rewrite export_loop by (by left). done.
Qed.

Lemma import_entry_does_rej guild_id mode st entry reason :
  reason ≠ "duplicate" →
  result_rej (import_entry_does guild_id mode st entry) !! reason
  = result_rej st !! reason.
Proof.
  intros Hne. unfold import_entry_does. case_match; simpl; [|done].
  by rewrite lookup_insert_ne.
Qed.

Lemma import_fold_rej guild_id mode data st reason :
  reason ≠ "duplicate" →
  result_rej (foldl (import_entry_does guild_id mode) st data) !! reason
  = result_rej st !! reason.
Proof.
  intros Hne. revert st.
  induction data as [|entry data IH]; intros st; simpl; [done|].
  rewrite IH. by apply import_entry_does_rej.
Qed.

(** X7: for every document, also one with a default that is no boolean,
    with lists that are no lists, with unknown groups or with user ids
    that are no integers, [import_rules] raises nothing, files no command
    under "not bool", "not list", "not group" or "not user id", and leaves
    [result_new] and [result_upd] empty. *)
Theorem import_rules_never_validates (groups : list ACL_group.t)
    (table : list ACL_rule.t) (guild_id : Z) (data : pydict) (mode : string) :
  ∃ st, import_rules groups table guild_id data mode = Ok st
        ∧ result_new st = [] ∧ result_upd st = []
        ∧ rejected "not bool" st = ∅
        ∧ rejected "not list" st = ∅
        ∧ rejected "not group" st = ∅
        ∧ rejected "not user id" st = ∅.
Proof.
  eexists. split; [apply import_rules_effect|].
  destruct (import_fold_results guild_id mode data
              (mkImport [] [] initial_rej table)) as [-> ->].
  unfold rejected. rewrite !import_fold_rej by done.
  by split_and!.
Qed.

(** X8: in mode "replace" nothing is rejected at all: the five sets of
    [result_rej] stay empty. *)
Theorem import_replace_rejects_nothing (groups : list ACL_group.t)
    (table : list ACL_rule.t) (guild_id : Z) (data : pydict) :
  ∃ st, import_rules groups table guild_id data "replace" = Ok st
        ∧ result_rej st = initial_rej.
Proof.
  eexists. split; [apply import_rules_effect|].
  change initial_rej with (result_rej (mkImport [] [] initial_rej table)) at 2.
  generalize (mkImport [] [] initial_rej table) as st.
  induction data as [|entry data IH]; intros st; simpl; [done|].
  rewrite IH. unfold import_entry_does. by rewrite andb_false_r.
Qed.

Lemma default_only_more guild_id entry data r :
  default_only guild_id data r → default_only guild_id (entry :: data) r.
Proof.
  unfold default_only. intros (? & ? & ?). split_and!; try tauto.
  simpl. by right.
Qed.

Lemma rule_get_append table guild c (r : ACL_rule.t) :
  ACL_rule.get table guild c = None →
  ACL_rule.guild_id r = guild → ACL_rule.command r = c →
  ACL_rule.get (table ++ [r]) guild c = Some r.
Proof.
  unfold ACL_rule.get. intros Hget Hguild Hc.
  induction table as [|r0 table IH]; simpl in *.
  - by rewrite bool_decide_eq_true_2.
  - destruct (bool_decide _); [done | by apply IH].
Qed.

Lemma rule_get_append_other table guild c (r : ACL_rule.t) :
  ACL_rule.command r ≠ c →
  ACL_rule.get (table ++ [r]) guild c = ACL_rule.get table guild c.
Proof.
  unfold ACL_rule.get. intros Hc.
  induction table as [|r0 table IH]; simpl in *.
  - rewrite bool_decide_eq_false_2; [done | tauto].
  - by destruct (bool_decide _).
Qed.

(** Outside mode "replace" a round of the loop leaves the table as it is
    or appends one row. *)
Lemma import_entry_does_rules guild_id mode st entry :
  mode ≠ "replace" →
  (is_Some (ACL_rule.get (rules st) guild_id entry.1)
   ∧ rules (import_entry_does guild_id mode st entry) = rules st
   ∧ rejected "duplicate" (import_entry_does guild_id mode st entry)
     = rejected "duplicate" st ∪ {[entry.1]})
  ∨ (ACL_rule.get (rules st) guild_id entry.1 = None
     ∧ rules (import_entry_does guild_id mode st entry)
       = rules st ++ [ACL_rule.mk (ACL_rule.fresh_id (rules st)) guild_id
                        entry.1 false [] [] [] []]
     ∧ rejected "duplicate" (import_entry_does guild_id mode st entry)
       = rejected "duplicate" st).
Proof.
  intros Hmode. unfold import_entry_does.
  rewrite (bool_decide_eq_false_2 (mode = "replace")) by done.
  rewrite andb_true_r. case_bool_decide as Hthere; simpl.
  - left. split_and!; [done..|].
    unfold rejected at 1. simpl. by rewrite lookup_insert_eq.
  - right. unfold ACL_rule.add.
    destruct (ACL_rule.get (rules st) guild_id entry.1) eqn:Hget.
    + exfalso. apply Hthere. by eexists.
    + done.
Qed.

Lemma import_fold_appends guild_id mode data st :
  mode ≠ "replace" →
  let st' := foldl (import_entry_does guild_id mode) st data in
  (∃ extra, rules st' = rules st ++ extra
            ∧ Forall (default_only guild_id data) extra)
  ∧ ∀ c, is_Some (ACL_rule.get (rules st) guild_id c) ∨ c ∈ dict_keys data →
         is_Some (ACL_rule.get (rules st') guild_id c).
Proof.
  intros Hmode. revert st.
  induction data as [|[k a] data IH]; intros st; simpl.
  - split.
    + exists []. by rewrite app_nil_r.
    + intros c [? | Hin]; [done | by apply elem_of_nil in Hin].
  - destruct (IH (import_entry_does guild_id mode st (k, a)))
      as [(extra & Hrules & Hextra) Hfound].
    assert (Forall (default_only guild_id ((k, a) :: data)) extra) as Hextra'.
    { eapply Forall_impl; [exact Hextra|].
      intros r. apply default_only_more. }
    destruct (import_entry_does_rules guild_id mode st (k, a) Hmode)
      as [(Hthere & Hsame & _) | (Hnone & Hnew & _)]; simpl in *.
    + split.
      * exists extra. by rewrite Hrules, Hsame.
      * intros c [Hc | [-> | Hc]%elem_of_cons]; apply Hfound.
        -- left. by rewrite Hsame.
        -- left. by rewrite Hsame.
        -- by right.
    + split.
      * eexists (_ :: extra). rewrite Hrules, Hnew, <- app_assoc.
        split; [done|]. constructor; [|done].
        unfold default_only. simpl. split_and!; try done. by left.
      * intros c [Hc | [-> | Hc]%elem_of_cons]; apply Hfound.
        -- left. rewrite Hnew. destruct Hc as [r Hr].
           rewrite (rule_get_app _ _ _ _ _ Hr). by eexists.
        -- left. rewrite Hnew. rewrite rule_get_append; by eauto.
        -- by right.
Qed.

(** X9: outside mode "replace", [import_rules] only appends to the rule
    table: the stored rules stay, in their order, and every rule behind
    them is for the guild and for a command of the document, with default
    false and four empty lists, whatever the document says.  Afterwards
    every command of the document has a rule. *)
Theorem import_add_appends_default_only (groups : list ACL_group.t)
    (table : list ACL_rule.t) (guild_id : Z) (data : pydict) (mode : string) :
  mode ≠ "replace" →
  ∃ st extra,
    import_rules groups table guild_id data mode = Ok st
    ∧ rules st = table ++ extra
    ∧ Forall (default_only guild_id data) extra
    ∧ ∀ c, c ∈ dict_keys data →
           is_Some (ACL_rule.get (rules st) guild_id c).
Proof.
  intros Hmode.
  destruct (import_fold_appends guild_id mode data
              (mkImport [] [] initial_rej table) Hmode)
    as [(extra & Hrules & Hextra) Hfound].
  eexists _, extra. split; [apply import_rules_effect|].
  split_and!; [done..|]. intros c Hc. apply Hfound. by right.
Qed.

Lemma import_add_appends_default_only_witness :
  ∃ st extra,
    import_rules [g_admin; g_mod] [r_kick] 7 doc_valid "add" = Ok st
    ∧ rules st = [r_kick] ++ extra
    ∧ Forall (default_only 7 doc_valid) extra
    ∧ ∀ c, c ∈ dict_keys doc_valid →
           is_Some (ACL_rule.get (rules st) 7 c).
Proof.
  apply (import_add_appends_default_only [g_admin; g_mod] [r_kick] 7
           doc_valid "add").
  discriminate.
Defined.

Lemma import_fold_duplicates guild_id mode data st table :
  mode ≠ "replace" →
  NoDup (dict_keys data) →
  (∀ c, c ∈ dict_keys data →
        ACL_rule.get (rules st) guild_id c = ACL_rule.get table guild_id c) →
  ∀ c, c ∈ rejected "duplicate"
             (foldl (import_entry_does guild_id mode) st data)
       ↔ c ∈ rejected "duplicate" st
         ∨ (c ∈ dict_keys data ∧ is_Some (ACL_rule.get table guild_id c)).
Proof.
  intros Hmode. revert st.
  induction data as [|[k a] data IH]; intros st Hnodup Hsame c; simpl.
  - split; [by left|]. intros [? | [Hin _]]; [done|].
    by apply elem_of_nil in Hin.
  - simpl in Hnodup. apply NoDup_cons in Hnodup as [Hk Hnodup].
    pose proof (Hsame k ltac:(by left)) as Hget.
    rewrite IH; [|done|].
    + destruct (import_entry_does_rules guild_id mode st (k, a) Hmode)
        as [(Hthere & _ & ->) | (Hnone & _ & ->)]; simpl in *.
      * rewrite Hget in Hthere. set_solver.
      * rewrite Hget in Hnone. rewrite elem_of_cons.
        split; [tauto|]. intros [? | [[-> | ?] Hsome]]; [tauto | | tauto].
        rewrite Hnone in Hsome. by destruct Hsome.
    + intros c' Hc'. rewrite <- Hsame by (by right).
      destruct (import_entry_does_rules guild_id mode st (k, a) Hmode)
        as [(_ & -> & _) | (_ & -> & _)]; simpl; [done|].
      apply rule_get_append_other. simpl. by intros ->.
Qed.

(** X10: outside mode "replace" and for a document whose keys are
    distinct, as those of a parsed JSON object are, the commands filed
    under "duplicate" are exactly the commands of the document that had a
    rule before the import. *)
Theorem import_duplicates_exactly (groups : list ACL_group.t)
    (table : list ACL_rule.t) (guild_id : Z) (data : pydict) (mode : string) :
  mode ≠ "replace" →
  NoDup (dict_keys data) →
  ∃ st, import_rules groups table guild_id data mode = Ok st
        ∧ ∀ c, c ∈ rejected "duplicate" st
               ↔ c ∈ dict_keys data
                 ∧ is_Some (ACL_rule.get table guild_id c).
Proof.
  intros Hmode Hnodup. eexists. split; [apply import_rules_effect|].
  intros c.
  rewrite (import_fold_duplicates guild_id mode data _ table) by done.
  split; [|by right]. intros [Hin | ?]; [|done].
  by apply not_elem_of_empty in Hin.
Qed.

(** Three commands against the rules "kick" and "ban": "kick" and "ban"
    are filed under "duplicate", "mute" is not. *)
Lemma import_duplicates_exactly_witness :
  ∃ st, import_rules [g_admin; g_mod] [r_kick; r_ban] 7 doc_three "add"
        = Ok st
        ∧ (∀ c, c ∈ rejected "duplicate" st
                ↔ c ∈ dict_keys doc_three
                  ∧ is_Some (ACL_rule.get [r_kick; r_ban] 7 c))
        ∧ "kick" ∈ rejected "duplicate" st
        ∧ "ban" ∈ rejected "duplicate" st
        ∧ "mute" ∉ rejected "duplicate" st.
Proof.
  destruct (import_duplicates_exactly [g_admin; g_mod] [r_kick; r_ban] 7
              doc_three "add") as (st & Hrun & Hiff).
  - discriminate.
  - cbn. repeat constructor; set_solver.
  - exists st. split_and!; [done | done | | |].
    + apply Hiff. split; [cbn; set_solver | by eexists].
    + apply Hiff. split; [cbn; set_solver | by eexists].
    + intros [_ [r Hr]]%Hiff. discriminate.
Defined.

(** * Further properties of [acl group update] *)

Lemma save_ids table (g : ACL_group.t) :
  ACL_group.id <$> ACL_group.save table g = ACL_group.id <$> table.
Proof.
  unfold ACL_group.save. rewrite <- list_fmap_compose.
  apply list_fmap_ext. intros i r _. simpl. by case_bool_decide.
Qed.

(** X11: whatever the builtin [int] answers, [acl group update] neither
    adds nor removes a group: when it returns, the ids of the rows stay
    as they are, in their order; and when the answer is not the group
    (unknown group, bad name, bad parameter), the table is unchanged. *)
Theorem acl_group_update_keeps_rows (py_int : string → res Z) table guild
    name param value table' reply :
  acl_group_update py_int table guild name param value
  = Ok (table', reply) →
  ACL_group.id <$> table' = ACL_group.id <$> table
  ∧ (reply = ReplyNone ∨ reply = ReplyBadName ∨ reply = ReplyBadParameter →
     table' = table).
Proof.
  unfold acl_group_update.
  destruct (ACL_group.get table guild name) as [group|];
    [|intros [= <- <-]; done].
  repeat case_bool_decide.
  - destruct (fullmatch_RE_NAME name); simpl; intros [= <- <-].
    + split; [apply save_ids | naive_solver].
    + done.
  - intros [= <- <-]. split; [apply save_ids | naive_solver].
  - destruct (py_int value) as [role|]; simpl; [|done].
    intros [= <- <-]. split; [apply save_ids | naive_solver].
  - by intros [= <- <-].
Qed.

(** A role id that is set, and a parameter that does not exist. *)
Lemma acl_group_update_keeps_rows_witness :
  (ACL_group.id <$> [g_admin; ACL_group.mk 2 7 "mod" (Some "admin") 5]
   = ACL_group.id <$> [g_admin; g_mod]
   ∧ (ReplyEmbed (ACL_group.mk 2 7 "mod" (Some "admin") 5) = ReplyNone
      ∨ ReplyEmbed (ACL_group.mk 2 7 "mod" (Some "admin") 5) = ReplyBadName
      ∨ ReplyEmbed (ACL_group.mk 2 7 "mod" (Some "admin") 5)
        = ReplyBadParameter →
      [g_admin; ACL_group.mk 2 7 "mod" (Some "admin") 5]
      = [g_admin; g_mod]))
  ∧ (ACL_group.id <$> [g_admin; g_mod] = ACL_group.id <$> [g_admin; g_mod]
     ∧ (ReplyBadParameter = ReplyNone ∨ ReplyBadParameter = ReplyBadName
        ∨ ReplyBadParameter = ReplyBadParameter →
        [g_admin; g_mod] = [g_admin; g_mod])).
Proof.
  split.
  - apply (acl_group_update_keeps_rows int_sample [g_admin; g_mod] 7 "mod"
             "role_id" "5").
    reflexivity.
  - apply (acl_group_update_keeps_rows int_sample [g_admin; g_mod] 7 "mod"
             "colour" "5").
    reflexivity.
Defined.

(** X12: [acl group update] with the parameter "parent" stores any value
    as the parent of a group that exists, and [ACL_group.get] then returns
    the group with that parent: the empty string, the name of a group that
    does not exist and the name of the group itself are stored like any
    other. *)
Theorem acl_group_update_parent_unchecked (py_int : string → res Z) table
    guild name value group :
  ACL_group.get table guild name = Some group →
  ∃ table' group',
    acl_group_update py_int table guild name "parent" value
    = Ok (table', ReplyEmbed group')
    ∧ ACL_group.get table' guild name = Some group'
    ∧ ACL_group.parent group' = Some value
    ∧ ACL_group.name group' = name.
Proof.
  intros Hget. unfold acl_group_update. rewrite Hget. simpl.
  assert (ACL_group.guild_id group = guild ∧ ACL_group.name group = name)
    as [Hguild Hname].
  { unfold ACL_group.get in Hget. apply find_some in Hget as [_ Hmatch].
    by apply bool_decide_eq_true in Hmatch. }
  eexists _, _. split; [done|]. split_and!; [|done..].
  unfold ACL_group.save. simpl. by apply group_get_after_replace.
Qed.

Lemma acl_group_update_parent_unchecked_witness :
  ∃ table' group',
    acl_group_update int_sample [g_admin; g_mod] 7 "mod" "parent" "mod"
    = Ok (table', ReplyEmbed group')
    ∧ ACL_group.get table' 7 "mod" = Some group'
    ∧ ACL_group.parent group' = Some "mod"
    ∧ ACL_group.name group' = "mod".
Proof.
  apply (acl_group_update_parent_unchecked int_sample [g_admin; g_mod] 7
           "mod" "mod" g_mod).
  reflexivity.
Defined.

Lemma relationships_has_name_witness :
  is_Some (relationships [g_c; g_b; g_a] !! ACL_group.name g_b).
Proof.
  apply (relationships_has_name [g_c; g_b; g_a] g_b).
  apply elem_of_cons. right. apply elem_of_cons. by left.
Defined.

(** * Further properties of [acl rule flush] *)

Lemma remove_all_guild table guild :
  ACL_rule.get_all (ACL_rule.remove_all table guild).1 guild = [].
Proof.
  unfold ACL_rule.get_all, ACL_rule.remove_all. simpl.
  induction table as [|r table IH]; simpl; [done|].
  case_bool_decide as Hr; simpl; [done|].
  by rewrite bool_decide_eq_false_2.
Qed.

Lemma remove_all_other table guild other :
  other ≠ guild →
  ACL_rule.get_all (ACL_rule.remove_all table guild).1 other
  = ACL_rule.get_all table other.
Proof.
  intros Hne. unfold ACL_rule.get_all, ACL_rule.remove_all. simpl.
  induction table as [|r table IH]; simpl; [done|].
  case_bool_decide as Hr; simpl.
  - rewrite bool_decide_eq_false_2 by congruence. done.
  - by rewrite IH.
Qed.

(** X14: [acl_rule_flush] raises nothing; the document it keeps is that of
    [acl_rule_export] on the rules as they were, so at most the last rule
    of the guild; afterwards the guild has no rule, and the rules of every
    other guild are as before. *)
Theorem acl_rule_flush_effect (table : list ACL_rule.t) (guild : Z) :
  ∃ document table',
    acl_rule_flush table guild = Ok (document, table')
    ∧ document = match last (ACL_rule.get_all table guild) with
                 | Some r => [("command", exported_fields r)]
                 | None => []
                 end
    ∧ ACL_rule.get_all table' guild = []
    ∧ ∀ other, other ≠ guild →
               ACL_rule.get_all table' other = ACL_rule.get_all table other.
Proof.
  unfold acl_rule_flush, acl_rule_export.
  rewrite export_loop by (by left). simpl.
  eexists _, _. split; [done|]. split_and!; [done | |].
  - apply remove_all_guild.
  - intros other. apply remove_all_other.
Qed.
